(** * MultimodalNavigationIsaacSim: command bridge, direction translator
      and navigation decision loop

    A shallow embedding of [src/bridge.py], of the tools of
    [src/mcp_server.py], of the handler of [src/http_server.py], of the
    physics callback of [src/simulation.py] and of the decision loop of
    [agent.py].

    Conventions of the embedding:
    - Python floats (velocities, durations, wall-clock readings) are
      rationals [Q], and [+] on them is the sum the code computes.  What is
      proved about a deadline is proved about the stored field
      [_command_until_walltime] and uses order, sign and the sum with zero
      only.  [float(x)] is the identity on them.
    - [time.time()] is an explicit argument [now] of every operation that
      reads the clock.
    - A Python [str] that the code analyses (a direction, the answer of the
      vision model) is the list of its code points.  White space is the set
      of code points of [str.isspace]; case conversion is fixed on ASCII and
      taken from a table of the Unicode mappings outside it.
    - Methods of [SimBridge] take the bridge as an argument and return the
      new bridge when they assign a field. *)

From Stdlib Require Import QArith NArith Lia Ascii String.
From stdpp Require Import gmap strings list fin_maps pretty.

Open Scope Q_scope.

(** ** Numbers *)

(** Python's [a > b] on floats. *)
Definition Qgtb (a b : Q) : bool := negb (Qle_bool a b).

(** Python's [max(0.0, x)]: the first argument unless the second is greater. *)
Definition max0 (x : Q) : Q := if Qgtb x 0 then x else 0.


(** ** Exceptions and results *)

Inductive exn : Type :=
| ValueError (msg : string).

Inductive pyresult (A : Type) : Type :=
| Return (a : A)
| Raise (e : exn).
Arguments Return {A} a.
Arguments Raise {A} e.


(** ** Vectors *)

Definition vec3 : Type := Q * Q * Q.

(** ** The object store

    [_last_state] holds a reference to a dict object, and the values of a
    snapshot are themselves dicts ([spot], [base_command], [camera]), so the
    store is explicit: a heap of dict objects whose values are scalars or
    references to other dict objects.  Lists of floats are given by value. *)

Definition addr : Type := nat.

Inductive pyval : Type :=
| VFloat (q : Q)
| VBool (b : bool)
| VStr (s : string)
| VFloats (l : list Q)
| VRef (a : addr).

Abbreviation pydict := (gmap string pyval).
Abbreviation heap := (gmap addr pydict).

(** A new dict object at an address the heap does not use yet. *)
Definition alloc (d : pydict) (h : heap) : addr * heap :=
  let a := fresh (dom h) in (a, <[a := d]> h).

(** [dict(x)]: a new dict object holding the items of [x]; the values are
    copied as they are, references included. *)
Definition dict_copy (x : addr) (h : heap) : option (addr * heap) :=
  match h !! x with
  | Some d => Some (alloc d h)
  | None => None
  end.

(** [x[k]], [x[k] = v] and [del x[k]] on the dict object at [x]. *)
Definition getitem (h : heap) (x : addr) (k : string) : option pyval :=
  match h !! x with
  | Some d => d !! k
  | None => None
  end.

Definition setitem (x : addr) (k : string) (v : pyval) (h : heap) : heap :=
  alter (insert k v) x h.

Definition delitem (x : addr) (k : string) (h : heap) : heap :=
  alter (delete k) x h.

(** [x[k1][k2]] and [x[k1][k2] = v]. *)
Definition getitem2 (h : heap) (x : addr) (k1 k2 : string) : option pyval :=
  match getitem h x k1 with
  | Some (VRef y) => getitem h y k2
  | _ => None
  end.

Definition setitem2 (x : addr) (k1 k2 : string) (v : pyval) (h : heap) : heap :=
  match getitem h x k1 with
  | Some (VRef y) => setitem y k2 v h
  | _ => h
  end.

(** ** [SimBridge] (bridge.py)

    The lock is left to the interleaving model further down; here every
    method runs alone. *)

Definition frame : Type := list (list Z).

Record SimBridge : Type := mkBridge {
  _last_state : addr;
  _camera_rgba : option frame;
  _base_command : vec3;
  _command_until_walltime : Q
}.

(** A fresh bridge: the field defaults of the dataclass, [_last_state] being
    a new empty dict. *)
Definition new_bridge (h : heap) : SimBridge * heap :=
  let '(a, h') := alloc ∅ h in
  ({| _last_state := a; _camera_rgba := None;
      _base_command := (0, 0, 0); _command_until_walltime := 0 |}, h').

Definition set_base_command (now : Q) (vx vy yaw_rate duration_s : Q) (self : SimBridge)
  : SimBridge :=
  let duration_s := max0 duration_s in
  let until := now + duration_s in
  {| _last_state := _last_state self; _camera_rgba := _camera_rgba self;
     _base_command := (vx, vy, yaw_rate); _command_until_walltime := until |}.

(** The read returns its value together with the bridge, which it leaves as
    it found it. *)
Definition get_base_command (now : Q) (self : SimBridge) : vec3 * SimBridge :=
  if Qgtb now (_command_until_walltime self) then ((0, 0, 0), self)
  else (_base_command self, self).

Definition update_state (state : addr) (self : SimBridge) (h : heap)
  : option (SimBridge * heap) :=
  match dict_copy state h with
  | Some (a, h') =>
      Some ({| _last_state := a; _camera_rgba := _camera_rgba self;
               _base_command := _base_command self;
               _command_until_walltime := _command_until_walltime self |}, h')
  | None => None
  end.

Definition get_state (self : SimBridge) (h : heap) : option (addr * heap) :=
  dict_copy (_last_state self) h.

Definition set_camera_rgba (rgba : option frame) (self : SimBridge) : SimBridge :=
  {| _last_state := _last_state self; _camera_rgba := rgba;
     _base_command := _base_command self;
     _command_until_walltime := _command_until_walltime self |}.

Definition get_camera_rgba (self : SimBridge) : option frame := _camera_rgba self.

(** A published snapshot with a nested pose, for the examples below: the
    simulation builds the dict at address 2, whose [spot] entry refers to
    the pose dict at address 1, publishes it, a reader takes the state and
    writes into the pose it reaches through its copy. *)
Definition example_snapshot : pydict :=
  <["timestamp"%string := VFloat 5]> (<["spot"%string := VRef 1%nat]> ∅).

Definition example_heap : heap :=
  <[2%nat := example_snapshot]>
    (<[1%nat := <["orientation_yaw_rad"%string := VFloat 0]> ∅]> ∅).

Definition published : option (SimBridge * heap) :=
  let '(b, h) := new_bridge example_heap in update_state 2%nat b h.

Definition published_world : SimBridge * heap :=
  match published with
  | Some w => w
  | None => new_bridge example_heap
  end.

Definition stored_yaw (w : SimBridge * heap) : option pyval :=
  getitem2 (snd w) (_last_state (fst w)) "spot" "orientation_yaw_rad".

Definition stored_timestamp (w : SimBridge * heap) : option pyval :=
  getitem (snd w) (_last_state (fst w)) "timestamp".

Definition next_reader_yaw (w : SimBridge * heap) : option pyval :=
  match get_state (fst w) (snd w) with
  | Some (s, h) => getitem2 h s "spot" "orientation_yaw_rad"
  | None => None
  end.

Definition reader_writes_pose (w : SimBridge * heap) : option (SimBridge * heap) :=
  match get_state (fst w) (snd w) with
  | Some (s, h) => Some (fst w, setitem2 s "spot" "orientation_yaw_rad" (VFloat 9) h)
  | None => None
  end.

Definition reader_writes_timestamp (w : SimBridge * heap) : option (SimBridge * heap) :=
  match get_state (fst w) (snd w) with
  | Some (s, h) => Some (fst w, setitem s "timestamp" (VFloat 9) h)
  | None => None
  end.

(** ** Threads on one bridge

    [set_base_command] and [get_base_command] as the threads of the MCP and
    HTTP servers and of the simulation run them: each call is cut into its
    atomic steps, a schedule picks the thread that moves next, and a thread
    that waits for the lock does not move.  The two fields are written by
    two separate steps, as in the source; only the lock keeps them together.

    [committed] is a history variable: the writes whose critical section has
    ended, oldest first.  A reader remembers in [seen] how many there were
    when it took the lock.  A writer that has returned has its write among
    them. *)

Module Concurrent.

Inductive call : Type :=
| SetCommand (vx vy yaw_rate duration_s : Q)
| GetCommand.

Inductive pc : Type :=
| WStart (vx vy yaw_rate duration_s : Q)
| WAcquire (v : vec3) (until : Q)
| WWriteCommand (v : vec3) (until : Q)
| WWriteUntil (v : vec3) (until : Q)
| WRelease (v : vec3) (until : Q)
| WDone
| RStart
| RAcquire (now : Q)
| RTest (now : Q) (seen : nat)
| RLoad (now : Q) (seen : nat)
| RRelease (now : Q) (seen : nat) (result : vec3)
| RDone (now : Q) (seen : nat) (result : vec3).

Record shared : Type := mkShared {
  lock : option nat;
  bridge : SimBridge;
  clock : Q;
  committed : list (vec3 * Q)
}.

Record state : Type := mkState {
  threads : list pc;
  mem : shared
}.

Definition with_lock (l : option nat) (m : shared) : shared :=
  {| lock := l; bridge := bridge m; clock := clock m; committed := committed m |}.

Definition with_bridge (b : SimBridge) (m : shared) : shared :=
  {| lock := lock m; bridge := b; clock := clock m; committed := committed m |}.

Definition with_clock (t : Q) (m : shared) : shared :=
  {| lock := lock m; bridge := bridge m; clock := t; committed := committed m |}.

Definition commit (w : vec3 * Q) (m : shared) : shared :=
  {| lock := lock m; bridge := bridge m; clock := clock m; committed := committed m ++ [w] |}.

Definition store_command (v : vec3) (b : SimBridge) : SimBridge :=
  {| _last_state := _last_state b; _camera_rgba := _camera_rgba b;
     _base_command := v; _command_until_walltime := _command_until_walltime b |}.

Definition store_until (u : Q) (b : SimBridge) : SimBridge :=
  {| _last_state := _last_state b; _camera_rgba := _camera_rgba b;
     _base_command := _base_command b; _command_until_walltime := u |}.

(** One atomic step of thread [i] at [p]; [None] when the thread cannot
    move (it has returned, or the lock is taken). *)
Definition exec (i : nat) (p : pc) (m : shared) : option (pc * shared) :=
  match p with
  | WStart vx vy yaw_rate duration_s =>
      Some (WAcquire (vx, vy, yaw_rate) (clock m + max0 duration_s), m)
  | WAcquire v u =>
      match lock m with
      | None => Some (WWriteCommand v u, with_lock (Some i) m)
      | Some _ => None
      end
  | WWriteCommand v u => Some (WWriteUntil v u, with_bridge (store_command v (bridge m)) m)
  | WWriteUntil v u => Some (WRelease v u, with_bridge (store_until u (bridge m)) m)
  | WRelease v u => Some (WDone, commit (v, u) (with_lock None m))
  | WDone => None
  | RStart => Some (RAcquire (clock m), m)
  | RAcquire now =>
      match lock m with
      | None => Some (RTest now (length (committed m)), with_lock (Some i) m)
      | Some _ => None
      end
  | RTest now n =>
      if Qgtb now (_command_until_walltime (bridge m))
      then Some (RRelease now n (0, 0, 0), m)
      else Some (RLoad now n, m)
  | RLoad now n => Some (RRelease now n (_base_command (bridge m)), m)
  | RRelease now n v => Some (RDone now n v, with_lock None m)
  | RDone _ _ _ => None
  end.

(** The schedule: thread [i] moves, or the wall clock shows [t] from now on
    (no assumption that it is monotone). *)
Inductive action : Type :=
| Run (i : nat)
| Clock (t : Q).

Definition do_action (s : state) (a : action) : state :=
  match a with
  | Clock t => {| threads := threads s; mem := with_clock t (mem s) |}
  | Run i =>
      match threads s !! i with
      | Some p =>
          match exec i p (mem s) with
          | Some (p', m') => {| threads := <[i := p']> (threads s); mem := m' |}
          | None => s
          end
      | None => s
      end
  end.

Definition run_schedule (sched : list action) (s : state) : state :=
  foldl do_action s sched.

Definition start (c : call) : pc :=
  match c with
  | SetCommand vx vy yaw_rate duration_s => WStart vx vy yaw_rate duration_s
  | GetCommand => RStart
  end.

Definition init (b : SimBridge) (t : Q) (calls : list call) : state :=
  {| threads := start <$> calls;
     mem := {| lock := None; bridge := b; clock := t; committed := [] |} |}.

(** The command and deadline in force after the writes [ws] on a bridge
    that started as [b]. *)
Definition in_force (b : SimBridge) (ws : list (vec3 * Q)) : vec3 * Q :=
  match last ws with
  | Some w => w
  | None => (_base_command b, _command_until_walltime b)
  end.

(** What a read at [now] returns when [w] is in force. *)
Definition read_of (now : Q) (w : vec3 * Q) : vec3 :=
  if Qgtb now (snd w) then (0, 0, 0) else fst w.

(** A thread run on its own: up to [n] steps of thread [i]. *)
Fixpoint run_alone (n : nat) (i : nat) (p : pc) (m : shared) : pc * shared :=
  match n with
  | O => (p, m)
  | S n' =>
      match exec i p m with
      | Some (p', m') => run_alone n' i p' m'
      | None => (p, m)
      end
  end.

(** The two fields of the bridge as they are in memory. *)
Definition stored (m : shared) : vec3 * Q :=
  (_base_command (bridge m), _command_until_walltime (bridge m)).

(** The program points inside [with self._lock]. *)
Definition holds_lock (p : pc) : bool :=
  match p with
  | WWriteCommand _ _ | WWriteUntil _ _ | WRelease _ _
  | RTest _ _ | RLoad _ _ | RRelease _ _ _ => true
  | WStart _ _ _ _ | WAcquire _ _ | WDone | RStart | RAcquire _ | RDone _ _ _ => false
  end.

(** [w] is the write of the call [c]: its vector, and a deadline that is
    some clock reading plus its clamped duration. *)
Definition write_of (c : call) (w : vec3 * Q) : Prop :=
  match c with
  | SetCommand vx vy yaw_rate duration_s =>
      fst w = (vx, vy, yaw_rate) /\ exists t, snd w = t + max0 duration_s
  | GetCommand => False
  end.

(** What holds of memory while a thread that runs [c] is at [p]. *)
Definition thread_ok (b0 : SimBridge) (c : call) (p : pc) (m : shared) : Prop :=
  match p with
  | WStart vx vy yaw_rate duration_s => c = SetCommand vx vy yaw_rate duration_s
  | WAcquire v u => write_of c (v, u)
  | WWriteCommand v u => write_of c (v, u) /\ stored m = in_force b0 (committed m)
  | WWriteUntil v u => write_of c (v, u) /\ _base_command (bridge m) = v
  | WRelease v u => write_of c (v, u) /\ stored m = (v, u)
  | WDone => exists w, w ∈ committed m /\ write_of c w
  | RStart | RAcquire _ => True
  | RTest now n =>
      n = length (committed m) /\ stored m = in_force b0 (committed m)
  | RLoad now n =>
      n = length (committed m) /\ stored m = in_force b0 (committed m) /\
      Qgtb now (snd (stored m)) = false
  | RRelease now n v =>
      n = length (committed m) /\ stored m = in_force b0 (committed m) /\
      v = read_of now (in_force b0 (committed m))
  | RDone now n v =>
      (n <= length (committed m))%nat /\
      v = read_of now (in_force b0 (take n (committed m)))
  end.

Record invariant (b0 : SimBridge) (calls : list call) (s : state) : Prop := mkInvariant {
  inv_threads : forall i p, threads s !! i = Some p ->
                  exists c, calls !! i = Some c /\ thread_ok b0 c p (mem s);
  inv_mutex : forall i p, threads s !! i = Some p -> holds_lock p = true ->
                lock (mem s) = Some i;
  inv_free : lock (mem s) = None -> stored (mem s) = in_force b0 (committed (mem s));
  inv_committed : forall w, w ∈ committed (mem s) ->
                    exists i c, calls !! i = Some c /\ write_of c w
}.

(** Two writers and a reader, and a schedule in which the second writer
    reads the clock first and writes last, while the reader waits for the
    first writer to leave. *)
Definition example_calls : list call :=
  [SetCommand 1 0 0 2; SetCommand 0 0 0.8 1; GetCommand].

Definition example_schedule : list action :=
  [Run 1; Clock 10; Run 0; Run 0; Run 2; Run 0; Run 2; Run 1; Run 0; Run 0;
   Run 2; Run 2; Run 2; Run 2; Run 1; Run 1; Run 1; Run 1].

End Concurrent.


(** ** Threads on the state snapshot

    [update_state] and [get_state] run as threads, cut at the lock and at
    the assignment of [_last_state]: [dict(...)] builds the new dict in
    one step (the interpreter copies a dict without switching threads),
    the assignment stores the reference to it, and both sit inside
    [with self._lock].  Besides the threads, the code outside the bridge
    writes into the dicts it holds, at any moment: a publisher into the
    dict it is about to hand over or has handed over, a reader into the
    snapshot it was given.  The dicts that [update_state] builds are held
    by the bridge alone, so a [Write] or [Remove] of the schedule never
    names one of them.

    [internal] and [snapshots] are history variables: the dicts built by
    [update_state], and the items of the dicts assigned to [_last_state],
    oldest first. *)

Module ConcurrentState.

Inductive call : Type :=
| UpdateState (state : addr)
| GetState.

Inductive pc : Type :=
| UStart (state : addr)
| UCopy (state : addr)
| UAssign (copy : addr) (items : pydict)
| URelease
| UDone
| GStart
| GCopy
| GRelease (seen : nat) (copy : addr) (items : pydict)
| GDone (seen : nat) (copy : addr) (items : pydict).

Record shared : Type := mkShared {
  slock : option nat;
  sbridge : SimBridge;
  objects : heap;
  internal : list addr;
  snapshots : list pydict
}.

Record state : Type := mkState {
  sthreads : list pc;
  smem : shared
}.

Definition assign_last_state (a : addr) (b : SimBridge) : SimBridge :=
  {| _last_state := a; _camera_rgba := _camera_rgba b;
     _base_command := _base_command b;
     _command_until_walltime := _command_until_walltime b |}.

(** One atomic step of thread [i] at [p]; [None] when the thread cannot
    move. *)
Definition exec (i : nat) (p : pc) (m : shared) : option (pc * shared) :=
  match p with
  | UStart state =>
      match slock m with
      | None =>
          Some (UCopy state,
                {| slock := Some i; sbridge := sbridge m; objects := objects m;
                   internal := internal m; snapshots := snapshots m |})
      | Some _ => None
      end
  | UCopy state =>
      match dict_copy state (objects m) with
      | Some (a, h') =>
          match h' !! a with
          | Some items =>
              Some (UAssign a items,
                    {| slock := slock m; sbridge := sbridge m; objects := h';
                       internal := a :: internal m; snapshots := snapshots m |})
          | None => None
          end
      | None => None
      end
  | UAssign a items =>
      Some (URelease,
            {| slock := slock m; sbridge := assign_last_state a (sbridge m);
               objects := objects m; internal := internal m;
               snapshots := snapshots m ++ [items] |})
  | URelease =>
      Some (UDone,
            {| slock := None; sbridge := sbridge m; objects := objects m;
               internal := internal m; snapshots := snapshots m |})
  | UDone => None
  | GStart =>
      match slock m with
      | None =>
          Some (GCopy,
                {| slock := Some i; sbridge := sbridge m; objects := objects m;
                   internal := internal m; snapshots := snapshots m |})
      | Some _ => None
      end
  | GCopy =>
      match dict_copy (_last_state (sbridge m)) (objects m) with
      | Some (a, h') =>
          match h' !! a with
          | Some items =>
              Some (GRelease (length (snapshots m)) a items,
                    {| slock := slock m; sbridge := sbridge m; objects := h';
                       internal := internal m; snapshots := snapshots m |})
          | None => None
          end
      | None => None
      end
  | GRelease n a items =>
      Some (GDone n a items,
            {| slock := None; sbridge := sbridge m; objects := objects m;
               internal := internal m; snapshots := snapshots m |})
  | GDone _ _ _ => None
  end.

(** The schedule: thread [i] moves, or code outside the bridge stores into
    or deletes from a dict that is not one of the bridge's own. *)
Inductive action : Type :=
| Run (i : nat)
| Write (x : addr) (k : string) (v : pyval)
| Remove (x : addr) (k : string).

Definition is_internal (x : addr) (m : shared) : bool :=
  existsb (Nat.eqb x) (internal m).

Definition with_objects (h : heap) (m : shared) : shared :=
  {| slock := slock m; sbridge := sbridge m; objects := h;
     internal := internal m; snapshots := snapshots m |}.

Definition do_action (s : state) (a : action) : state :=
  match a with
  | Run i =>
      match sthreads s !! i with
      | Some p =>
          match exec i p (smem s) with
          | Some (p', m') => {| sthreads := <[i := p']> (sthreads s); smem := m' |}
          | None => s
          end
      | None => s
      end
  | Write x k v =>
      if is_internal x (smem s) then s
      else {| sthreads := sthreads s;
              smem := with_objects (setitem x k v (objects (smem s))) (smem s) |}
  | Remove x k =>
      if is_internal x (smem s) then s
      else {| sthreads := sthreads s;
              smem := with_objects (delitem x k (objects (smem s))) (smem s) |}
  end.

Definition run_schedule (sched : list action) (s : state) : state :=
  foldl do_action s sched.

Definition start (c : call) : pc :=
  match c with
  | UpdateState state => UStart state
  | GetState => GStart
  end.

(** The bridge [b] on the heap [h], its stored dict not yet handed to
    anyone. *)
Definition init (b : SimBridge) (h : heap) (calls : list call) : state :=
  {| sthreads := start <$> calls;
     smem := {| slock := None; sbridge := b; objects := h;
                internal := [_last_state b]; snapshots := [] |} |}.

(** The items of the snapshot in force after the publications [ps] on a
    bridge whose stored dict held [d0]. *)
Definition snapshot_in_force (d0 : pydict) (ps : list pydict) : pydict :=
  match last ps with
  | Some d => d
  | None => d0
  end.

(** The program points inside [with self._lock]. *)
Definition holds_lock (p : pc) : bool :=
  match p with
  | UCopy _ | UAssign _ _ | URelease | GCopy | GRelease _ _ _ => true
  | UStart _ | UDone | GStart | GDone _ _ _ => false
  end.

(** What holds of memory while a thread is at [p]: an update that has
    built its dict holds it alone; a read that has copied holds the items
    of the snapshot in force when it was inside the lock, in a dict of its
    own. *)
Definition thread_ok (d0 : pydict) (p : pc) (m : shared) : Prop :=
  match p with
  | UAssign a items => In a (internal m) /\ objects m !! a = Some items
  | GRelease n a items =>
      n = length (snapshots m) /\
      items = snapshot_in_force d0 (snapshots m) /\
      ~ In a (internal m) /\ is_Some (objects m !! a)
  | GDone n a items =>
      (n <= length (snapshots m))%nat /\
      items = snapshot_in_force d0 (take n (snapshots m)) /\
      ~ In a (internal m) /\ is_Some (objects m !! a)
  | _ => True
  end.

Record invariant (d0 : pydict) (s : state) : Prop := mkInvariant {
  inv_stored : objects (smem s) !! _last_state (sbridge (smem s))
               = Some (snapshot_in_force d0 (snapshots (smem s)));
  inv_owned : In (_last_state (sbridge (smem s))) (internal (smem s));
  inv_alive : forall a, In a (internal (smem s)) -> is_Some (objects (smem s) !! a);
  inv_threads : forall i p, sthreads s !! i = Some p -> thread_ok d0 p (smem s);
  inv_mutex : forall i p, sthreads s !! i = Some p -> holds_lock p = true ->
                slock (smem s) = Some i
}.

(** A reader, a publisher and a second reader on the world of the
    examples above.  The publisher waits for the first reader to leave the
    lock, the second reader for the publisher; meanwhile the publisher
    writes into the dict it has handed over and the first reader into its
    copy. *)
Definition example_calls : list call := [GetState; UpdateState 2%nat; GetState].

Definition example_schedule : list action :=
  [Run 0; Run 0; Run 1; Run 0; Run 1; Run 1; Run 2; Write 2%nat "timestamp" (VFloat 7);
   Run 1; Run 2; Run 1; Run 2; Run 2; Write 4%nat "timestamp" (VFloat 9); Run 2].

End ConcurrentState.

(** ** Calls into libraries *)

(** The outcome of a library call that may raise: the message of the
    exception ([str(e)]) or the value. *)
Inductive outcome (A : Type) : Type :=
| Fails (message : string)
| Gives (a : A).
Arguments Fails {A} message.
Arguments Gives {A} a.

(** What a sensor read comes back with. *)
Inductive sensor (A : Type) : Type :=
| SensorRaises
| SensorReads (a : A).
Arguments SensorRaises {A}.
Arguments SensorReads {A} a.

(** ** Threads that have returned, and the holder of the lock *)

Definition returned (p : Concurrent.pc) : bool :=
  match p with
  | Concurrent.WDone | Concurrent.RDone _ _ _ => true
  | _ => false
  end.

(** The lock is held by a thread that is inside it. *)
Definition holder_inside (s : Concurrent.state) : Prop :=
  forall i, Concurrent.lock (Concurrent.mem s) = Some i ->
    exists p, Concurrent.threads s !! i = Some p /\ Concurrent.holds_lock p = true.

(** ** Strings

    A Python [str] is the list of its code points.  The literals of the
    source are ASCII and are written [py "..."].  Dict keys, the text of
    messages and the names of tools, which the code only compares with
    literals or passes on, stay Rocq strings. *)

Definition pystr : Type := list N.

Definition py (s : string) : pystr := map N_of_ascii (list_ascii_of_string s).

Fixpoint str_eqb (a b : pystr) : bool :=
  match a, b with
  | [], [] => true
  | x :: a', y :: b' => (x =? y)%N && str_eqb a' b'
  | _, _ => false
  end.

(** The code points [str.strip()] removes, those for which [isspace()]
    holds: U+0009-000D, U+001C-0020, U+0085, U+00A0, U+1680, U+2000-200A,
    U+2028, U+2029, U+202F, U+205F and U+3000. *)
Definition is_space (c : N) : bool :=
  ((9 <=? c) && (c <=? 13) || (28 <=? c) && (c <=? 32) || (c =? 133) || (c =? 160)
   || (c =? 5760) || (8192 <=? c) && (c <=? 8202) || (c =? 8232) || (c =? 8233)
   || (c =? 8239) || (c =? 8287) || (c =? 12288))%N.

Definition is_ascii (c : N) : bool := (c <? 128)%N.

(** [lower()] and [upper()] of an ASCII character. *)
Definition ascii_lower (c : N) : N :=
  if ((65 <=? c) && (c <=? 90))%N then (c + 32)%N else c.

Definition ascii_upper (c : N) : N :=
  if ((97 <=? c) && (c <=? 122))%N then (c - 32)%N else c.

Fixpoint lstrip (s : pystr) : pystr :=
  match s with
  | [] => []
  | c :: s' => if is_space c then lstrip s' else s
  end.

Fixpoint rstrip (s : pystr) : pystr :=
  match s with
  | [] => []
  | c :: s' =>
      match rstrip s' with
      | [] => if is_space c then [] else [c]
      | r => c :: r
      end
  end.

(** [s.strip()]. *)
Definition strip (s : pystr) : pystr := lstrip (rstrip s).

(** [s.split('\n')[0]]: the code points before the first line feed. *)
Fixpoint first_line (s : pystr) : pystr :=
  match s with
  | [] => []
  | c :: s' => if (c =? 10)%N then [] else c :: first_line s'
  end.

Fixpoint is_prefix (needle hay : pystr) : bool :=
  match needle, hay with
  | [], _ => true
  | x :: needle', y :: hay' => (x =? y)%N && is_prefix needle' hay'
  | _ :: _, [] => false
  end.

(** [needle in hay] on strings: substring test. *)
Fixpoint contains (needle hay : pystr) : bool :=
  is_prefix needle hay
  || match hay with
     | [] => false
     | _ :: hay' => contains needle hay'
     end.

(** [d in {...}] for a set literal of strings. *)
Definition in_set (d : pystr) (l : list pystr) : bool := existsb (str_eqb d) l.

Fixpoint all_space (s : pystr) : bool :=
  match s with
  | [] => true
  | c :: s' => is_space c && all_space s'
  end.


(** [x in (...)] for a tuple literal of strings that are compared as they
    are. *)
Definition in_tuple (x : string) (l : list string) : bool := existsb (String.eqb x) l.

(** What [upper()] and [lower()] take from the Unicode database, which is
    not part of the repository: the full uppercase mapping of a code point
    outside ASCII ([chr(c).upper()], one to three code points), and
    [s.lower()] for a string that has a code point outside ASCII (where
    the result of a capital sigma depends on its neighbours).  On ASCII
    both are fixed below. *)
Record unicode : Type := mkUnicode {
  unicode_upper : N -> pystr;
  unicode_lower : pystr -> pystr
}.

(** A table for the examples, with Python's mappings of U+017F (long s),
    U+00DF (sharp s), U+0131 (dotless i) and U+212A (Kelvin sign), the
    only letters outside ASCII that the examples use; it leaves every
    other code point outside ASCII as it is. *)
Definition example_unicode : unicode :=
  {| unicode_upper := fun c =>
       if (c =? 383)%N then [83%N]
       else if (c =? 223)%N then [83%N; 83%N]
       else if (c =? 305)%N then [73%N]
       else [c];
     unicode_lower := fun s =>
       map (fun c => if (c =? 8490)%N then 107%N else ascii_lower c) s |}.


Section Unicode.
Context (U : unicode).

Definition upper_char (c : N) : pystr :=
  if is_ascii c then [ascii_upper c] else unicode_upper U c.

(** [s.upper()] and [s.lower()]. *)
Definition str_upper (s : pystr) : pystr := concat (map upper_char s).

Definition str_lower (s : pystr) : pystr :=
  if forallb is_ascii s then map ascii_lower s else unicode_lower U s.

(** ** [direction_to_command] (bridge.py) *)

Definition unknown_direction_msg : string :=
  "Unknown direction. Use one of: forward/back/left/right/turn_left/turn_right/stop".

Definition direction_to_command (direction : pystr) (speed yaw_rate : Q) : pyresult vec3 :=
  let d := str_lower (strip direction) in
  if in_set d [py "forward"; py "fwd"; py "front"] then Return (speed, 0, 0)
  else if in_set d [py "back"; py "backward"; py "reverse"] then Return (- speed, 0, 0)
  else if in_set d [py "left"; py "strafe_left"] then Return (0, speed, 0)
  else if in_set d [py "right"; py "strafe_right"] then Return (0, - speed, 0)
  else if in_set d [py "turn_left"; py "yaw_left"; py "rotate_left"] then Return (0, 0, yaw_rate)
  else if in_set d [py "turn_right"; py "yaw_right"; py "rotate_right"] then Return (0, 0, - yaw_rate)
  else if in_set d [py "stop"; py "halt"] then Return (0, 0, 0)
  else Raise (ValueError unknown_direction_msg).




(** ** [giveMoveCommand] and [stop] (mcp_server.py) *)

Record applied_record : Type := mkApplied {
  applied_vx : Q;
  applied_vy : Q;
  applied_yaw_rate : Q;
  applied_duration_s : Q
}.

Record move_result : Type := mkMoveResult {
  ok : bool;
  applied : applied_record
}.

Definition giveMoveCommand (now : Q) (direction : pystr) (length speed yaw_rate : Q)
    (bridge : SimBridge) : pyresult move_result * SimBridge :=
  match direction_to_command direction speed yaw_rate with
  | Raise e => (Raise e, bridge)
  | Return (vx, vy, wz) =>
      let bridge' := set_base_command now vx vy wz length bridge in
      (Return {| ok := true;
                 applied := {| applied_vx := vx; applied_vy := vy;
                               applied_yaw_rate := wz; applied_duration_s := length |} |},
       bridge')
  end.

Definition stop (now : Q) (bridge : SimBridge) : SimBridge :=
  set_base_command now 0 0 0 0 bridge.


(** ** The navigation decision loop ([navigate_robot], agent.py)

    The loop talks to the MCP server only through tool calls.  What the
    server answers is the environment of the loop: one record of replies per
    iteration.  What the loop does is the list of events it produces: its
    tool calls, its sleeps and the two totals it prints when it ends (the
    progress messages of the iterations are left out).  The embedding starts
    where the session is connected. *)

Inductive tool_call : Type :=
| getCameraImage
| getState
| queryVisionModel (prompt model : string)
| giveMoveCommand_call (direction : string) (length speed yaw_rate : Q)
| stop_call.

Inductive event : Type :=
| Call (c : tool_call)
| Sleep (seconds : nat)
| PrintTotalSteps (step : nat)
| PrintTotalDistance (distance_moved : Q).

(** The reply to [getCameraImage]: no content, a payload whose [ok] is
    false, an exception, or an image. *)
Inductive camera_reply : Type :=
| CameraNoContent
| CameraNotOk
| CameraRaises
| CameraOk.

(** The reply to [queryVisionModel]: an exception, a payload whose [ok] is
    false, or a payload with its [response] text. *)
Inductive vision_reply : Type :=
| VisionRaises
| VisionNotOk
| VisionOk (response : pystr).

(** The reply to [giveMoveCommand]: an exception, a payload whose [ok] is
    false, or a payload with the [duration_s] of its [applied] record when
    it has one.  An exception of the [stop] call is caught and only printed,
    so its reply is not part of the environment. *)
Inductive move_reply : Type :=
| MoveRaises
| MoveNotOk
| MoveOk (duration_s : option Q).

Record replies : Type := mkReplies {
  camera : camera_reply;
  vision : vision_reply;
  move : move_reply
}.

Record nav_state : Type := mkNav {
  step : nat;
  distance_moved : Q;
  consecutive_stops : nat
}.

Definition max_steps : nat := 100.

Definition initial_nav_state : nav_state :=
  {| step := 0; distance_moved := 0; consecutive_stops := 0 |}.

Definition vision_prompt : string :=
  "You are a robot navigation assistant. Analyze the camera view and respond with ONLY one of these:
- FORWARD: if the path ahead is completely clear and safe to move
- SLOW: if there are potential obstacles or you need to be cautious
- OBSTACLE_LEFT: if there's an obstacle ahead but left side looks clear
- OBSTACLE_RIGHT: if there's an obstacle ahead but right side looks clear
- BLOCKED: if the path is completely blocked in all directions

Then briefly explain what you see.".

Definition query_call : tool_call := queryVisionModel vision_prompt "qwen3-vl:4b".

(** What the if/elif chain over [primary_command] leaves behind: a movement
    command with its speed and duration and the new [consecutive_stops], or
    the branch that stops the robot and breaks out of the loop. *)
Inductive branch : Type :=
| Move (movement_command : string) (speed duration : Q) (consecutive_stops : nat)
| StopAndBreak (consecutive_stops : nat).

Definition choose_movement (vision_analysis : pystr) (consecutive_stops : nat) : branch :=
  let analysis_upper := str_upper vision_analysis in
  let primary_command := first_line analysis_upper in
  if contains (py "FORWARD") primary_command then Move "forward" 1 2 0
  else if contains (py "SLOW") primary_command then Move "forward" 1 1 0
  else if contains (py "OBSTACLE_LEFT") primary_command then Move "left" 1 1 0
  else if contains (py "OBSTACLE_RIGHT") primary_command then Move "right" 1 1 0
  else if contains (py "BLOCKED") primary_command then
    let consecutive_stops := S consecutive_stops in
    if (consecutive_stops <=? 2)%nat then Move "turn_left" 1 1 consecutive_stops
    else if (consecutive_stops <=? 4)%nat then Move "turn_right" 1 1 consecutive_stops
    else StopAndBreak consecutive_stops
  else Move "forward" 1 1 0.

Inductive flow : Type := Continue | Break.

(** [applied.get("duration_s", 0)]. *)
Definition duration_or_zero (d : option Q) : Q :=
  match d with Some q => q | None => 0 end.

(** One pass through the body of [while step < max_steps]. *)
Definition loop_body (r : replies) (st : nav_state) : flow * nav_state * list event :=
  let step := S (step st) in
  let skipped := {| step := step; distance_moved := distance_moved st;
                    consecutive_stops := consecutive_stops st |} in
  match camera r with
  | CameraNoContent | CameraNotOk | CameraRaises =>
      (Continue, skipped, [Call getCameraImage; Sleep 1])
  | CameraOk =>
      match vision r with
      | VisionRaises | VisionNotOk | VisionOk [] =>
          (Continue, skipped, [Call getCameraImage; Call getState; Call query_call; Sleep 1])
      | VisionOk vision_analysis =>
          match choose_movement vision_analysis (consecutive_stops st) with
          | StopAndBreak n =>
              (Break,
               {| step := step; distance_moved := distance_moved st; consecutive_stops := n |},
               [Call getCameraImage; Call getState; Call query_call; Call stop_call; Sleep 2])
          | Move movement_command speed duration n =>
              let distance_moved :=
                match move r with
                | MoveOk d =>
                    if String.eqb movement_command "forward"
                    then distance_moved st + duration_or_zero d * speed
                    else distance_moved st
                | MoveRaises | MoveNotOk => distance_moved st
                end in
              (Continue,
               {| step := step; distance_moved := distance_moved; consecutive_stops := n |},
               [Call getCameraImage; Call getState; Call query_call;
                Call (giveMoveCommand_call movement_command duration speed 0.8); Sleep 1])
          end
      end
  end.

Inductive exit_reason : Type :=
| MaxStepsReached
| Stopped.

Record run : Type := mkRun {
  reason : exit_reason;
  final : nav_state;
  events : list event
}.

(** The while loop.  [env n] holds the replies of the iteration that prints
    "Navigation Step n".  The fuel bounds the number of iterations unfolded;
    [while_loop_total] below shows that [max_steps - step] is enough. *)
Fixpoint while_loop (fuel : nat) (env : nat -> replies) (st : nav_state) : option run :=
  if (step st <? max_steps)%nat then
    match fuel with
    | O => None
    | S fuel' =>
        match loop_body (env (S (step st))) st with
        | (Break, st', evs) => Some {| reason := Stopped; final := st'; events := evs |}
        | (Continue, st', evs) =>
            match while_loop fuel' env st' with
            | Some r => Some {| reason := reason r; final := final r; events := evs ++ events r |}
            | None => None
            end
        end
    end
  else Some {| reason := MaxStepsReached; final := st; events := [] |}.

(** The loop from its initial state, followed by the closing report. *)
Definition navigate_robot (env : nat -> replies) : option run :=
  match while_loop max_steps env initial_nav_state with
  | Some r =>
      Some {| reason := reason r; final := final r;
              events := events r ++ [PrintTotalSteps (step (final r));
                                     PrintTotalDistance (distance_moved (final r))] |}
  | None => None
  end.

(** The motion primitives a run issued, in order. *)
Definition primitive_of (e : event) : option string :=
  match e with
  | Call (giveMoveCommand_call direction _ _ _) => Some direction
  | Call stop_call => Some "stop"%string
  | _ => None
  end.

Definition primitives (evs : list event) : list string := omap primitive_of evs.

Definition is_stop_call (e : event) : bool :=
  match e with Call stop_call => true | _ => false end.

(** The iterations of a run: each one starts with its [getCameraImage]
    call. *)
Definition is_camera_call (e : event) : bool :=
  match e with Call getCameraImage => true | _ => false end.

Definition iterations (evs : list event) : nat := length (filter is_camera_call evs).

Definition is_command_call (e : event) : bool :=
  match e with
  | Call (giveMoveCommand_call _ _ _ _) | Call stop_call | Call (queryVisionModel _ _) => true
  | _ => false
  end.

(** An iteration that the loop gives up on: no camera frame, or no usable
    answer of the vision model. *)
Definition iteration_fails (r : replies) : bool :=
  match camera r with
  | CameraOk =>
      match vision r with
      | VisionOk (_ :: _) => false
      | VisionOk [] | VisionRaises | VisionNotOk => true
      end
  | CameraNoContent | CameraNotOk | CameraRaises => true
  end.

(** *** The decision and the policy table, in the words of the specification

    The decision token is the first line of the uppercased response; the
    rules are tried in the order FORWARD, SLOW, OBSTACLE_LEFT,
    OBSTACLE_RIGHT, BLOCKED, and a rule matches when its word occurs in the
    token (the [in] test of the source). *)

Inductive decision : Type :=
| FORWARD | SLOW | OBSTACLE_LEFT | OBSTACLE_RIGHT | BLOCKED | UNKNOWN.

Definition decision_token (response : pystr) : pystr :=
  first_line (str_upper response).

Definition rules : list (pystr * decision) :=
  [ (py "FORWARD", FORWARD); (py "SLOW", SLOW);
    (py "OBSTACLE_LEFT", OBSTACLE_LEFT); (py "OBSTACLE_RIGHT", OBSTACLE_RIGHT);
    (py "BLOCKED", BLOCKED) ].

Fixpoint first_match (rs : list (pystr * decision)) (token : pystr) : decision :=
  match rs with
  | [] => UNKNOWN
  | (word, d) :: rs' => if contains word token then d else first_match rs' token
  end.

Definition decision_of (response : pystr) : decision :=
  first_match rules (decision_token response).

(** Decision to (primitive, speed, duration); BLOCKED has no row, it goes
    through the escalation. *)
Definition policy (d : decision) : option (string * Q * Q) :=
  match d with
  | FORWARD => Some ("forward"%string, 1, 2)
  | SLOW => Some ("forward"%string, 1, 1)
  | OBSTACLE_LEFT => Some ("left"%string, 1, 1)
  | OBSTACLE_RIGHT => Some ("right"%string, 1, 1)
  | UNKNOWN => Some ("forward"%string, 1, 1)
  | BLOCKED => None
  end.

(** Count of consecutive BLOCKED decisions to what is issued. *)
Definition escalation (count : nat) : string :=
  if (count <=? 2)%nat then "turn_left"
  else if (count <=? 4)%nat then "turn_right"
  else "stop".

(** An iteration with a camera frame and a response whose decision is
    BLOCKED. *)
Definition blocked_iteration (r : replies) : bool :=
  match camera r, vision r with
  | CameraOk, VisionOk response =>
      match decision_of response with BLOCKED => true | _ => false end
  | _, _ => false
  end.

(** The tool calls every iteration makes before it acts on the answer. *)
Definition sensing : list event := [Call getCameraImage; Call getState; Call query_call].

(** Replies used in the examples below. *)
Definition no_camera : replies :=
  {| camera := CameraNotOk; vision := VisionNotOk; move := MoveNotOk |}.

Definition forward_reply : replies :=
  {| camera := CameraOk; vision := VisionOk (py "FORWARD: clear path"); move := MoveOk (Some 2) |}.



Definition blocked_response : pystr := py "BLOCKED
wall ahead".

Definition blocked_reply : replies :=
  {| camera := CameraOk; vision := VisionOk blocked_response; move := MoveOk (Some 1) |}.


(** * The rest of the servers and the simulation

    The other tools of [mcp_server.py], the request handler of
    [http_server.py] and the physics callback and publishing step of
    [simulation.py].  What these take from libraries that are not part of
    the repository is a parameter: the PNG encoder, the HTTP client,
    [float] on strings, the sensors. *)

(** ** The other tools of [mcp_server.py] *)

Definition getState_tool (bridge : SimBridge) (h : heap) : option (addr * heap) :=
  get_state bridge h.

Definition setBaseCommand (now vx vy yaw_rate duration : Q) (bridge : SimBridge)
  : bool * SimBridge :=
  (true, set_base_command now vx vy yaw_rate duration bridge).

Definition stop_tool (now : Q) (bridge : SimBridge) : bool * SimBridge :=
  (true, set_base_command now 0 0 0 0 bridge).

Record png_image : Type := mkPng {
  image_base64 : string;
  width : nat;
  height : nat
}.

Inductive camera_payload : Type :=
| CameraPayloadOk (image : png_image)
| CameraPayloadError (error : string).

Definition no_frame_msg : string := "No camera frame available".

(** [getCameraImage]; [encode] stands for the numpy/PIL/base64 pipeline. *)
Definition getCameraImage_tool (encode : frame -> outcome png_image) (bridge : SimBridge)
  : camera_payload :=
  match get_camera_rgba bridge with
  | None => CameraPayloadError no_frame_msg
  | Some rgba =>
      match encode rgba with
      | Gives image => CameraPayloadOk image
      | Fails message => CameraPayloadError message
      end
  end.

(** What [requests.post] can come back with: an exception, or a response
    with its status code, its text and what [response.json()] and
    [result.get("response", "").strip()] make of it (an exception, a missing
    key, or the text of the key). *)
Inductive post_reply : Type :=
| PostRaises (message : string)
| PostResponds (status_code : nat) (text : string) (json_response : outcome (option pystr)).

Inductive vision_payload : Type :=
| VisionPayloadOk (response : pystr) (model : string)
| VisionPayloadError (error : string).

(** [queryVisionModel]; [post model prompt image] stands for the request to
    the Ollama endpoint. *)
Definition queryVisionModel_tool
    (encode : frame -> outcome png_image)
    (post : string -> string -> string -> post_reply)
    (prompt model : string) (bridge : SimBridge) : vision_payload :=
  match get_camera_rgba bridge with
  | None => VisionPayloadError no_frame_msg
  | Some rgba =>
      match encode rgba with
      | Fails message => VisionPayloadError message
      | Gives image =>
          match post model prompt (image_base64 image) with
          | PostRaises message => VisionPayloadError message
          | PostResponds status_code text json_response =>
              if (status_code =? 200)%nat then
                match json_response with
                | Fails message => VisionPayloadError message
                | Gives None => VisionPayloadOk (strip (py "")) model
                | Gives (Some response) => VisionPayloadOk (strip response) model
                end
              else
                VisionPayloadError
                  ("Vision model returned status " +:+ pretty status_code +:+ ": " +:+ text)
          end
      end
  end.

(** How the agent reads the two payloads once they have gone through the
    JSON text of the tool result: [ok] first, then [response]. *)
Definition camera_reply_of (p : camera_payload) : camera_reply :=
  match p with
  | CameraPayloadOk _ => CameraOk
  | CameraPayloadError _ => CameraNotOk
  end.

Definition vision_reply_of (p : vision_payload) : vision_reply :=
  match p with
  | VisionPayloadOk response _ => VisionOk response
  | VisionPayloadError _ => VisionNotOk
  end.

(** The reply the agent gets for a [giveMoveCommand] call that the server
    runs at [now]: the payload of the tool, or an error result that the
    agent cannot decode when the tool raises. *)
Definition move_reply_of (res : pyresult move_result) : move_reply :=
  match res with
  | Return r => if ok r then MoveOk (Some (applied_duration_s (applied r))) else MoveNotOk
  | Raise _ => MoveRaises
  end.

(** ** [Handler.do_GET] (http_server.py)

    The handler gets the path and the query as [urlparse] and [parse_qs]
    return them; the headers it sends are left out of the response. *)

Inductive http_image : Type :=
| HttpPng (png_data : string)
| HttpRaw (raw_data : string)
| HttpImageFails (message : string).

Inductive http_body : Type :=
| BodyIndex
| BodyState (snapshot : addr)
| BodyOk
| BodyApplied (a : applied_record)
| BodyError (error : string)
| BodyPng (png_data : string)
| BodyRaw (raw_data : string)
| BodyEmpty.

Record http_response : Type := mkResponse {
  status : nat;
  body : http_body
}.

(** [(query.get(key) or [default])[0]]. *)
Definition query_param (query : gmap string (list pystr)) (key : string) (default : pystr)
  : pystr :=
  match query !! key with
  | Some (x :: _) => x
  | Some [] | None => default
  end.

(** The block of the [/move] route. *)
Definition handle_move (py_float : pystr -> pyresult Q) (now : Q)
    (query : gmap string (list pystr)) (bridge : SimBridge) : http_response * SimBridge :=
  let direction := query_param query "direction" (py "") in
  match py_float (query_param query "length" (py "0.2")) with
  | Raise (ValueError msg) => ({| status := 400; body := BodyError msg |}, bridge)
  | Return length =>
      match py_float (query_param query "speed" (py "1.0")) with
      | Raise (ValueError msg) => ({| status := 400; body := BodyError msg |}, bridge)
      | Return speed =>
          match py_float (query_param query "yaw_rate" (py "0.8")) with
          | Raise (ValueError msg) => ({| status := 400; body := BodyError msg |}, bridge)
          | Return yaw_rate =>
              match direction_to_command direction speed yaw_rate with
              | Raise (ValueError msg) => ({| status := 400; body := BodyError msg |}, bridge)
              | Return (vx, vy, wz) =>
                  ({| status := 200;
                      body := BodyApplied {| applied_vx := vx; applied_vy := vy;
                                             applied_yaw_rate := wz;
                                             applied_duration_s := length |} |},
                   set_base_command now vx vy wz length bridge)
              end
          end
      end
  end.

(** The block of the [/camera] route; [encode] stands for the PNG encoding
    with its raw fallback. *)
Definition handle_camera (encode : frame -> http_image) (bridge : SimBridge) : http_response :=
  match get_camera_rgba bridge with
  | None => {| status := 503; body := BodyError no_frame_msg |}
  | Some rgba =>
      match encode rgba with
      | HttpPng png_data => {| status := 200; body := BodyPng png_data |}
      | HttpRaw raw_data => {| status := 200; body := BodyRaw raw_data |}
      | HttpImageFails message => {| status := 500; body := BodyError message |}
      end
  end.

Definition do_GET (py_float : pystr -> pyresult Q) (encode : frame -> http_image)
    (now : Q) (parsed_path : string) (query : gmap string (list pystr))
    (bridge : SimBridge) (h : heap) : option (http_response * SimBridge * heap) :=
  let path := if String.eqb parsed_path "" then "/"%string else parsed_path in
  if in_tuple path ["/"; ""]%string then
    Some ({| status := 200; body := BodyIndex |}, bridge, h)
  else if String.eqb path "/state" then
    match get_state bridge h with
    | Some (snapshot, h') => Some ({| status := 200; body := BodyState snapshot |}, bridge, h')
    | None => None
    end
  else if String.eqb path "/stop" then
    Some ({| status := 200; body := BodyOk |}, set_base_command now 0 0 0 0 bridge, h)
  else if String.eqb path "/move" then
    let '(response, bridge') := handle_move py_float now query bridge in
    Some (response, bridge', h)
  else if String.eqb path "/camera" then
    Some (handle_camera encode bridge, bridge, h)
  else Some ({| status := 404; body := BodyEmpty |}, bridge, h).

(** ** [SpotSimulation] (simulation.py) *)

Record SpotSimulation : Type := mkSim {
  first_step : bool;
  reset_needed : bool
}.

(** The simulation as its constructor leaves it. *)
Definition new_simulation : SpotSimulation :=
  {| first_step := true; reset_needed := false |}.

(** What a physics callback does to the robot and the world. *)
Inductive sim_event : Type :=
| spot_initialize
| camera_initialize
| world_reset
| spot_forward (step_size : Q) (cmd : vec3).

Definition on_physics_step (now step_size : Q) (bridge : SimBridge) (self : SpotSimulation)
  : SpotSimulation * list sim_event :=
  if first_step self then
    ({| first_step := false; reset_needed := reset_needed self |},
     [spot_initialize; camera_initialize])
  else if reset_needed self then
    ({| first_step := true; reset_needed := false |}, [world_reset])
  else
    let '(vx, vy, wz) := fst (get_base_command now bridge) in
    (self, [spot_forward step_size (vx, vy, wz)]).

(** A tick: the time and step size of a physics callback, with the bridge
    as the other threads have left it by then, and whether the run loop
    has seen the world stopped since the tick before. *)
Record tick : Type := mkTick {
  tick_now : Q;
  tick_step_size : Q;
  tick_bridge : SimBridge;
  tick_world_stopped : bool
}.

(** [if self.world.is_stopped(): self.reset_needed = True], in [run]. *)
Definition note_stopped (is_stopped : bool) (self : SpotSimulation) : SpotSimulation :=
  if is_stopped then {| first_step := first_step self; reset_needed := true |} else self.

Fixpoint physics_ticks (ticks : list tick) (self : SpotSimulation)
  : SpotSimulation * list sim_event :=
  match ticks with
  | [] => (self, [])
  | t :: ticks' =>
      let self := note_stopped (tick_world_stopped t) self in
      let '(self', evs) := on_physics_step (tick_now t) (tick_step_size t) (tick_bridge t) self in
      let '(self'', evs') := physics_ticks ticks' self' in
      (self'', evs ++ evs')
  end.

Definition base_command_dict (v : vec3) : pydict :=
  let '(vx, vy, wz) := v in
  <["vx"%string := VFloat vx]>
    (<["vy"%string := VFloat vy]> (<["yaw_rate"%string := VFloat wz]> ∅)).

(** The publishing step of [run] when the world is playing: read the
    command, store the camera frame, build the state dict with its three
    nested dicts and hand it to [update_state].  [pose] and [summary] are
    what [_safe_get_spot_pose] and [_safe_get_camera_summary] return. *)
Definition publish (now_read now_stamp : Q) (rgba : sensor (option frame))
    (pose summary : pydict) (bridge : SimBridge) (h : heap) : option (SimBridge * heap) :=
  let v := fst (get_base_command now_read bridge) in
  let bridge :=
    match rgba with
    | SensorReads camera_rgba => set_camera_rgba camera_rgba bridge
    | SensorRaises => bridge
    end in
  let '(spot, h) := alloc pose h in
  let '(base_command, h) := alloc (base_command_dict v) h in
  let '(camera, h) := alloc summary h in
  let '(state, h) :=
    alloc (<["timestamp"%string := VFloat now_stamp]>
             (<["spot"%string := VRef spot]>
                (<["base_command"%string := VRef base_command]>
                   (<["camera"%string := VRef camera]> ∅)))) h in
  update_state state bridge h.

(** A [float] that knows the numerals of the examples below. *)
Definition example_float (text : pystr) : pyresult Q :=
  if str_eqb text (py "0.2") then Return 0.2
  else if str_eqb text (py "1.0") then Return 1
  else if str_eqb text (py "0.8") then Return 0.8
  else if str_eqb text (py "2") then Return 2
  else Raise (ValueError "could not convert string to float").

Definition example_query : gmap string (list pystr) :=
  <["direction"%string := [py "Forward"]]> (<["length"%string := [py "2"]]> ∅).

Definition example_encode (rgba : frame) : http_image := HttpPng "png".

(** A trace in which every [world_reset] is the last event or is followed
    at once by [spot_initialize]. *)
Fixpoint reset_then_initialize (evs : list sim_event) : bool :=
  match evs with
  | [] => true
  | world_reset :: rest =>
      match rest with
      | [] => true
      | spot_initialize :: _ => reset_then_initialize rest
      | _ => false
      end
  | _ :: rest => reset_then_initialize rest
  end.

Definition is_forward (e : sim_event) : bool :=
  match e with spot_forward _ _ => true | _ => false end.

Definition forwards_zero (e : sim_event) : Prop :=
  match e with
  | spot_forward _ cmd => cmd = (0, 0, 0)
  | _ => True
  end.

Definition expired_at (t : tick) : Prop :=
  _command_until_walltime (tick_bridge t) < tick_now t.

Definition example_ticks : list tick :=
  let b := set_base_command 10 1 0 0 2 (fst (new_bridge ∅)) in
  [ mkTick 12.5 0.002 b false; mkTick 12.502 0.002 b false; mkTick 12.504 0.002 b true;
    mkTick 12.506 0.002 b false; mkTick 12.508 0.002 b false ].


(** What an iteration adds to [distance_moved]: the reported duration of an
    acknowledged move whose decision is FORWARD, SLOW or the fallback,
    times the speed 1.0; [None] when the iteration leaves the total as it
    is. *)
Definition credit (r : replies) : option Q :=
  if iteration_fails r then None
  else
    match vision r, move r with
    | VisionOk response, MoveOk d =>
        match decision_of response with
        | FORWARD | SLOW | UNKNOWN => Some (duration_or_zero d * 1)
        | OBSTACLE_LEFT | OBSTACLE_RIGHT | BLOCKED => None
        end
    | _, _ => None
    end.

(** [distance_moved += c], when there is a [c]. *)
Definition add_credit (distance_moved : Q) (c : option Q) : Q :=
  match c with
  | Some q => distance_moved + q
  | None => distance_moved
  end.

(** The total after the iterations [from + 1], ..., [from + n], added in
    the order of the iterations to the total before them. *)
Fixpoint accumulate (env : nat -> replies) (from n : nat) (distance_moved : Q) : Q :=
  match n with
  | O => distance_moved
  | S n' => accumulate env (S from) n' (add_credit distance_moved (credit (env (S from))))
  end.
(** * Properties *)

(** ** Numbers *)

Lemma Qgtb_true a b : Qgtb a b = true <-> b < a.
Proof.
  unfold Qgtb. rewrite negb_true_iff, <- not_true_iff_false, Qle_bool_iff.
  split; [apply Qnot_le_lt | apply Qlt_not_le].
Qed.

Lemma Qgtb_false a b : Qgtb a b = false <-> ~ b < a.
Proof.
  rewrite <- Qgtb_true. destruct (Qgtb a b); split; congruence.
Qed.

Lemma max0_neg x : x < 0 -> max0 x = 0.
Proof.
  intros Hx. unfold max0.
  destruct (Qgtb x 0) eqn:E; [|reflexivity].
  apply Qgtb_true in E. exfalso. apply (Qlt_irrefl 0). now apply Qlt_trans with x.
Qed.

Lemma max0_nonneg x : 0 <= max0 x.
Proof.
  unfold max0. destruct (Qgtb x 0) eqn:E.
  - apply Qgtb_true in E. now apply Qlt_le_weak.
  - apply Qle_refl.
Qed.

(** ** The command window *)

Lemma get_base_command_expired now self :
  _command_until_walltime self < now -> fst (get_base_command now self) = (0, 0, 0).
Proof.
  intros H. unfold get_base_command. apply Qgtb_true in H. now rewrite H.
Qed.

Lemma get_base_command_active now self :
  ~ _command_until_walltime self < now ->
  fst (get_base_command now self) = _base_command self.
Proof.
  intros H. unfold get_base_command. apply Qgtb_false in H. now rewrite H.
Qed.

Lemma get_base_command_reads now self : snd (get_base_command now self) = self.
Proof. unfold get_base_command. now destruct (Qgtb _ _). Qed.

(** C1: a read at [now] returns (0,0,0) when [now] is strictly after the
    stored deadline, whatever vector is stored, and the stored vector
    otherwise.  The read assigns no field: the vector and the deadline stay
    in the bridge after the deadline has passed, so expiry is nothing but
    this comparison at read time. *)
Theorem get_base_command_lazy_expiry (now : Q) (self : SimBridge) :
  (_command_until_walltime self < now -> fst (get_base_command now self) = (0, 0, 0)) /\
  (~ _command_until_walltime self < now ->
     fst (get_base_command now self) = _base_command self) /\
  snd (get_base_command now self) = self.
Proof.
  split; [apply get_base_command_expired|].
  split; [apply get_base_command_active | apply get_base_command_reads].
Qed.

Example get_base_command_after_deadline :
  let b := set_base_command 10 1 0 0.8 2 (fst (new_bridge ∅)) in
  fst (get_base_command 12 b) = (1, 0, 0.8) /\
  fst (get_base_command 12.5 b) = (0, 0, 0) /\
  _base_command (snd (get_base_command 12.5 b)) = (1, 0, 0.8).
Proof. repeat split. Qed.

(** C2: a negative duration is clamped to 0, so the deadline is the time of
    the call and every strictly later read returns (0,0,0). *)
Theorem set_base_command_negative_duration
    (now vx vy yaw_rate d : Q) (self : SimBridge) :
  d < 0 ->
  let self' := set_base_command now vx vy yaw_rate d self in
  max0 d = 0 /\
  _command_until_walltime self' == now /\
  _base_command self' = (vx, vy, yaw_rate) /\
  forall now', now < now' -> fst (get_base_command now' self') = (0, 0, 0).
Proof.
  intros Hd self'.
  assert (Hu : _command_until_walltime self' == now).
  { unfold self', set_base_command. cbn. rewrite (max0_neg d Hd). apply Qplus_0_r. }
  repeat split; [now apply max0_neg | exact Hu |].
  intros now' Hlt. apply get_base_command_expired. now rewrite Hu.
Qed.

Lemma set_base_command_negative_duration_witness :
  -1 < 0 /\
  max0 (-1) = 0 /\
  _command_until_walltime (set_base_command 10 1 0 0.8 (-1) (fst (new_bridge ∅))) == 10 /\
  _base_command (set_base_command 10 1 0 0.8 (-1) (fst (new_bridge ∅))) = (1, 0, 0.8) /\
  forall now', 10 < now' ->
    fst (get_base_command now' (set_base_command 10 1 0 0.8 (-1) (fst (new_bridge ∅))))
    = (0, 0, 0).
Proof.
  split; [reflexivity|].
  apply (set_base_command_negative_duration 10 1 0 0.8 (-1) (fst (new_bridge ∅))).
  reflexivity.
Defined.

(** [stop()] twice leaves the same zero command as once, up to the time of
    the call. *)
Lemma stop_idempotent now now' bridge :
  _base_command (stop now' (stop now bridge)) = _base_command (stop now bridge) /\
  fst (get_base_command now' (stop now' (stop now bridge))) = (0, 0, 0).
Proof.
  split; [reflexivity|].
  unfold get_base_command. now destruct (Qgtb _ _).
Qed.

(** C10: for a valid direction the [applied] record reports [duration_s] as
    the requested length, unclamped, while the bridge stores the deadline
    computed from the clamped length; a negative length is reported as a
    negative [duration_s] although the command expires at once. *)
Theorem giveMoveCommand_reports_requested_length
    (now : Q) (direction : pystr) (length speed yaw_rate : Q) (bridge : SimBridge) (v : vec3) :
  direction_to_command direction speed yaw_rate = Return v ->
  exists r,
    fst (giveMoveCommand now direction length speed yaw_rate bridge) = Return r /\
    ok r = true /\
    applied_duration_s (applied r) = length /\
    (applied_vx (applied r), applied_vy (applied r), applied_yaw_rate (applied r)) = v /\
    let bridge' := snd (giveMoveCommand now direction length speed yaw_rate bridge) in
    _base_command bridge' = v /\
    _command_until_walltime bridge' = now + max0 length /\
    (length < 0 ->
       applied_duration_s (applied r) < 0 /\ _command_until_walltime bridge' == now).
Proof.
  intros Hv. unfold giveMoveCommand. rewrite Hv. destruct v as [[vx vy] wz].
  eexists. split; [reflexivity|]. cbn.
  do 5 (split; [reflexivity|]).
  intros Hneg. split; [exact Hneg|].
  rewrite (max0_neg _ Hneg). apply Qplus_0_r.
Qed.

(** ** Characters and strings *)

Ltac decide_cmp :=
  repeat match goal with
  | |- context [(?a <=? ?b)%N] =>
      first [ rewrite (proj2 (N.leb_le a b)) by lia | rewrite (proj2 (N.leb_gt a b)) by lia ]
  | |- context [(?a <? ?b)%N] =>
      first [ rewrite (proj2 (N.ltb_lt a b)) by lia | rewrite (proj2 (N.ltb_ge a b)) by lia ]
  | |- context [(?a =? ?b)%N] =>
      first [ rewrite (proj2 (N.eqb_eq a b)) by lia | rewrite (proj2 (N.eqb_neq a b)) by lia ]
  end.

Lemma ascii_lower_cases c :
  (65 <= c <= 90 /\ ascii_lower c = c + 32)%N \/ ((c < 65 \/ 90 < c)%N /\ ascii_lower c = c).
Proof.
  unfold ascii_lower.
  destruct (N.leb_spec 65 c); destruct (N.leb_spec c 90); cbn; [left | right..]; lia.
Qed.




Lemma is_ascii_ascii_lower c : is_ascii (ascii_lower c) = is_ascii c.
Proof.
  unfold is_ascii.
  destruct (ascii_lower_cases c) as [[H ->]|[_ ->]]; [|reflexivity]. now decide_cmp.
Qed.




Lemma in_tuple_In x l : in_tuple x l = true <-> In x l.
Proof.
  unfold in_tuple. rewrite existsb_exists. split.
  - intros (y & Hy & E). apply String.eqb_eq in E. now subst.
  - intros H. exists x. split; [exact H | apply String.eqb_refl].
Qed.

(** *** Trimming *)

Lemma lstrip_idem s : lstrip (lstrip s) = lstrip s.
Proof.
  induction s as [|c s IH]; cbn; [reflexivity|].
  destruct (is_space c) eqn:E; [exact IH|]. cbn. now rewrite E.
Qed.

Lemma rstrip_idem s : rstrip (rstrip s) = rstrip s.
Proof.
  induction s as [|c s IH]; cbn; [reflexivity|].
  destruct (rstrip s) as [|c' r] eqn:E.
  - destruct (is_space c) eqn:Ec; cbn; [reflexivity|]. now rewrite Ec.
  - cbn in IH |- *. now rewrite IH.
Qed.

Lemma rstrip_lstrip s : rstrip (lstrip s) = lstrip (rstrip s).
Proof.
  induction s as [|c s IH]; cbn; [reflexivity|].
  destruct (is_space c) eqn:Ec.
  - rewrite IH. destruct (rstrip s); cbn; now rewrite ?Ec.
  - cbn. destruct (rstrip s); cbn; now rewrite Ec.
Qed.

Lemma strip_idem s : strip (strip s) = strip s.
Proof.
  unfold strip. now rewrite (rstrip_lstrip (rstrip s)), rstrip_idem, lstrip_idem.
Qed.

Lemma lstrip_all_space s : all_space s = true -> lstrip s = [].
Proof.
  induction s as [|c s IH]; cbn; [reflexivity|].
  intros H. apply andb_true_iff in H as [Hc Hs]. rewrite Hc. now apply IH.
Qed.

Lemma rstrip_all_space s : all_space s = true -> rstrip s = [].
Proof.
  induction s as [|c s IH]; cbn; [reflexivity|].
  intros H. apply andb_true_iff in H as [Hc Hs]. now rewrite (IH Hs), Hc.
Qed.

Lemma strip_all_space s : all_space s = true -> strip s = [].
Proof. intros H. unfold strip. now rewrite (rstrip_all_space s H). Qed.




Section StripMap.
Variable f : N -> N.
Hypothesis f_space : forall c, is_space (f c) = is_space c.



End StripMap.

Section StripKeeps.
Variable P : N -> bool.



End StripKeeps.

(** *** Case *)

Lemma forallb_is_ascii_lower s : forallb is_ascii (map ascii_lower s) = forallb is_ascii s.
Proof.
  induction s as [|c s IH]; cbn; [reflexivity|]. now rewrite IH, is_ascii_ascii_lower.
Qed.





(** *** Lines and occurrences *)









(** ** The direction translator *)






Example direction_to_command_turn_left :
  direction_to_command (py "turn_left") 1 0.8 = Return (0, 0, 0.8).
Proof. reflexivity. Qed.

Example direction_to_command_right :
  direction_to_command (py "right") 1 0.8 = Return (0, -1, 0).
Proof. reflexivity. Qed.

Example direction_to_command_diagonal :
  direction_to_command (py "diagonal") 1 0.8 = Raise (ValueError unknown_direction_msg).
Proof. reflexivity. Qed.

Example direction_to_command_mixed_case :
  direction_to_command (py "Yaw_RIGHT") 1 0.8 = Return (0, 0, -0.8).
Proof. reflexivity. Qed.

(** A token between two no-break spaces (U+00A0) is translated. *)
Example direction_to_command_no_break_space :
  direction_to_command ([160%N] ++ py "forward" ++ [160%N]) 1 0.8 = Return (1, 0, 0).
Proof. reflexivity. Qed.

(** ** The decision *)

Lemma choose_movement_policy response n :
  choose_movement response n =
  match policy (decision_of response) with
  | Some (primitive, speed, duration) => Move primitive speed duration 0
  | None =>
      if (S n <=? 2)%nat then Move "turn_left" 1 1 (S n)
      else if (S n <=? 4)%nat then Move "turn_right" 1 1 (S n)
      else StopAndBreak (S n)
  end.
Proof.
  unfold choose_movement, decision_of, decision_token, rules, first_match.
  repeat (destruct (contains _ (first_line (str_upper response))); [reflexivity|]).
  reflexivity.
Qed.

Lemma decision_of_nonempty response :
  decision_of response <> UNKNOWN -> response <> [].
Proof. intros H ->. now apply H. Qed.

(** ** One iteration *)

Lemma loop_body_step r st : step (snd (fst (loop_body r st))) = S (step st).
Proof.
  unfold loop_body.
  destruct (camera r); try reflexivity.
  destruct (vision r) as [| |[|c s]]; try reflexivity.
  destruct (choose_movement _ _); reflexivity.
Qed.

Lemma loop_body_failed r st :
  iteration_fails r = true ->
  exists evs,
    loop_body r st =
      (Continue,
       {| step := S (step st); distance_moved := distance_moved st;
          consecutive_stops := consecutive_stops st |},
       evs ++ [Sleep 1]) /\
    (evs = [Call getCameraImage] \/ evs = sensing).
Proof.
  unfold iteration_fails, loop_body. intros H.
  destruct (camera r); try (exists [Call getCameraImage]; split; [reflexivity | now left]).
  destruct (vision r) as [| |[|c s]]; try discriminate;
    (exists sensing; split; [reflexivity | now right]).
Qed.

(** An iteration with a frame and a non-empty response, by the decision. *)
Lemma loop_body_decided r st response :
  camera r = CameraOk -> vision r = VisionOk response -> response <> [] ->
  loop_body r st =
  match policy (decision_of response) with
  | Some (primitive, speed, duration) =>
      (Continue,
       {| step := S (step st);
          distance_moved :=
            match move r with
            | MoveOk d =>
                if String.eqb primitive "forward"
                then distance_moved st + duration_or_zero d * speed
                else distance_moved st
            | MoveRaises | MoveNotOk => distance_moved st
            end;
          consecutive_stops := 0 |},
       sensing ++ [Call (giveMoveCommand_call primitive duration speed 0.8); Sleep 1])
  | None =>
      let count := S (consecutive_stops st) in
      let st' := {| step := S (step st); distance_moved := distance_moved st;
                    consecutive_stops := count |} in
      if (count <=? 4)%nat
      then (Continue, st',
            sensing ++ [Call (giveMoveCommand_call (escalation count) 1 1 0.8); Sleep 1])
      else (Break, st', sensing ++ [Call stop_call; Sleep 2])
  end.
Proof.
  intros Hc Hv Hne. unfold loop_body. rewrite Hc, Hv.
  destruct response as [|c s]; [congruence|].
  rewrite choose_movement_policy.
  destruct (policy _) as [[[primitive speed] duration]|]; [reflexivity|].
  unfold escalation.
  destruct (consecutive_stops st) as [|[|[|[|n]]]]; cbn [Nat.leb]; try reflexivity;
    destruct (move r); reflexivity.
Qed.

Lemma blocked_iteration_inv r :
  blocked_iteration r = true ->
  camera r = CameraOk /\
  exists response,
    vision r = VisionOk response /\ decision_of response = BLOCKED /\
    response <> [].
Proof.
  unfold blocked_iteration. intros H.
  destruct (camera r); try discriminate.
  destruct (vision r) as [| |response]; try discriminate.
  split; [reflexivity|]. exists response.
  destruct (decision_of response) eqn:E; try discriminate.
  repeat split. apply decision_of_nonempty. now rewrite E.
Qed.

Lemma loop_body_blocked r st :
  blocked_iteration r = true ->
  loop_body r st =
  let count := S (consecutive_stops st) in
  let st' := {| step := S (step st); distance_moved := distance_moved st;
                consecutive_stops := count |} in
  if (count <=? 4)%nat
  then (Continue, st',
        sensing ++ [Call (giveMoveCommand_call (escalation count) 1 1 0.8); Sleep 1])
  else (Break, st', sensing ++ [Call stop_call; Sleep 2]).
Proof.
  intros H. destruct (blocked_iteration_inv r H) as (Hc & response & Hv & Hd & Hne).
  rewrite (loop_body_decided r st response Hc Hv Hne), Hd. reflexivity.
Qed.


(** The FORWARD scenario: one iteration issues forward with speed 1.0 and
    duration 2.0, and the distance grows by the reported duration_s times
    the speed, 2.0. *)
Example forward_iteration :
  loop_body forward_reply initial_nav_state =
  (Continue, {| step := 1; distance_moved := 0 + 2 * 1; consecutive_stops := 0 |},
   sensing ++ [Call (giveMoveCommand_call "forward" 2 1 0.8); Sleep 1]).
Proof. reflexivity. Qed.

(** Rules are tried in order: a first line with both words is FORWARD; and
    only the first line counts. *)
Example decision_priority :
  decision_of (py "blocked on the left, FORWARD is free") = FORWARD /\
  decision_of (py "Blocked
FORWARD") = BLOCKED /\
  decision_of (py "maybe") = UNKNOWN.
Proof. repeat split. Qed.

(** ** The loop *)

Lemma while_loop_exit fuel env st :
  (max_steps <= step st)%nat ->
  while_loop fuel env st = Some {| reason := MaxStepsReached; final := st; events := [] |}.
Proof.
  intros H. apply Nat.ltb_ge in H. destruct fuel; cbn [while_loop]; now rewrite H.
Qed.

Lemma while_loop_iterate fuel env st :
  (step st < max_steps)%nat ->
  while_loop (S fuel) env st =
  match loop_body (env (S (step st))) st with
  | (Break, st', evs) => Some {| reason := Stopped; final := st'; events := evs |}
  | (Continue, st', evs) =>
      match while_loop fuel env st' with
      | Some r => Some {| reason := reason r; final := final r; events := evs ++ events r |}
      | None => None
      end
  end.
Proof. intros H. apply Nat.ltb_lt in H. cbn [while_loop]. now rewrite H. Qed.

(** The loop returns: every iteration advances [step], so [max_steps - step]
    iterations are enough. *)
Lemma while_loop_total fuel : forall env st,
  (max_steps - step st <= fuel)%nat -> exists r, while_loop fuel env st = Some r.
Proof.
  induction fuel as [|fuel IH]; intros env st Hfuel.
  - rewrite while_loop_exit by lia. eauto.
  - destruct (Nat.lt_ge_cases (step st) max_steps) as [Hlt|Hge].
    + rewrite (while_loop_iterate _ _ _ Hlt).
      pose proof (loop_body_step (env (S (step st))) st) as Hstep.
      destruct (loop_body _ st) as [[[] st'] evs]; cbn in Hstep.
      * destruct (IH env st') as [r Hr]; [lia|]. rewrite Hr. eauto.
      * eauto.
    + rewrite while_loop_exit by lia. eauto.
Qed.

(** What one iteration can end with: it goes on without a [stop] call, or it
    breaks right after its [stop] call, with five or more BLOCKED decisions
    in a row. *)
Lemma loop_body_flow r st :
  match loop_body r st with
  | (Continue, _, evs) => existsb is_stop_call evs = false
  | (Break, st', evs) =>
      evs = sensing ++ [Call stop_call; Sleep 2] /\ (5 <= consecutive_stops st')%nat
  end.
Proof.
  unfold loop_body.
  destruct (camera r); try reflexivity.
  destruct (vision r) as [| |[|c s]]; try reflexivity.
  rewrite choose_movement_policy.
  destruct (policy _) as [[[primitive speed] duration]|]; [reflexivity|].
  destruct (consecutive_stops st) as [|[|[|[|n]]]]; cbn [Nat.leb]; try reflexivity.
  split; [reflexivity | cbn; lia].
Qed.

Lemma existsb_stop_app evs evs' :
  existsb is_stop_call (evs ++ evs') = existsb is_stop_call evs || existsb is_stop_call evs'.
Proof. apply existsb_app. Qed.

Lemma while_loop_exits fuel : forall env st r,
  (step st <= max_steps)%nat ->
  while_loop fuel env st = Some r ->
  (step st <= step (final r) <= max_steps)%nat /\
  match reason r with
  | MaxStepsReached =>
      step (final r) = max_steps /\ existsb is_stop_call (events r) = false
  | Stopped =>
      (exists evs, events r = evs ++ sensing ++ [Call stop_call; Sleep 2] /\
                   existsb is_stop_call evs = false) /\
      (5 <= consecutive_stops (final r))%nat
  end.
Proof.
  induction fuel as [|fuel IH]; intros env st r Hle Hr.
  - destruct (Nat.lt_ge_cases (step st) max_steps) as [Hlt|Hge].
    + apply Nat.ltb_lt in Hlt. cbn [while_loop] in Hr. rewrite Hlt in Hr. discriminate.
    + rewrite while_loop_exit in Hr by exact Hge. injection Hr as <-. cbn.
      repeat split; lia.
  - destruct (Nat.lt_ge_cases (step st) max_steps) as [Hlt|Hge].
    + rewrite (while_loop_iterate _ _ _ Hlt) in Hr.
      pose proof (loop_body_step (env (S (step st))) st) as Hstep.
      pose proof (loop_body_flow (env (S (step st))) st) as Hflow.
      destruct (loop_body _ st) as [[[] st'] evs]; cbn in Hstep.
      * destruct (while_loop fuel env st') as [r'|] eqn:Hr'; [|discriminate].
        injection Hr as <-. cbn.
        destruct (IH env st' r' ltac:(lia) Hr') as [Hsteps Hreason].
        split; [lia|].
        destruct (reason r').
        -- destruct Hreason as [-> Hno]. split; [reflexivity|].
           now rewrite existsb_stop_app, Hflow, Hno.
        -- destruct Hreason as [(evs' & -> & Hno) Hfive]. split; [|exact Hfive].
           exists (evs ++ evs'). split; [now rewrite <- app_assoc|].
           now rewrite existsb_stop_app, Hflow, Hno.
      * injection Hr as <-. cbn. destruct Hflow as [-> Hfive].
        split; [lia|]. split; [|exact Hfive]. now exists [].
    + rewrite while_loop_exit in Hr by exact Hge. injection Hr as <-. cbn.
      repeat split; lia.
Qed.

Lemma initial_fuel : (max_steps - step initial_nav_state <= max_steps)%nat.
Proof. unfold max_steps. cbn. lia. Qed.

Lemma initial_step : (step initial_nav_state <= max_steps)%nat.
Proof. unfold max_steps. cbn. lia. Qed.

Lemma navigate_robot_returns env : exists r, navigate_robot env = Some r.
Proof.
  unfold navigate_robot.
  destruct (while_loop_total max_steps env initial_nav_state initial_fuel) as [r Hr].
  rewrite Hr. eauto.
Qed.

(** C5, as the code has it: the loop always ends, through one of two exits,
    and the report of the step count and of the forward distance closes
    every run.  On the STOPPED exit the last tool call is [stop] and it is
    the only one of the run; on the exit at [max_steps] the run holds no
    [stop] call at all. *)
Theorem navigate_robot_termination (env : nat -> replies) :
  exists r,
    navigate_robot env = Some r /\
    exists evs,
      events r = evs ++ [PrintTotalSteps (step (final r));
                         PrintTotalDistance (distance_moved (final r))] /\
      match reason r with
      | MaxStepsReached =>
          step (final r) = max_steps /\ existsb is_stop_call evs = false
      | Stopped =>
          (exists evs', evs = evs' ++ sensing ++ [Call stop_call; Sleep 2] /\
                        existsb is_stop_call evs' = false) /\
          (5 <= consecutive_stops (final r))%nat /\
          (step (final r) <= max_steps)%nat
      end.
Proof.
  unfold navigate_robot.
  destruct (while_loop_total max_steps env initial_nav_state initial_fuel) as [r Hr].
  rewrite Hr. eexists. split; [reflexivity|]. cbn.
  exists (events r). split; [reflexivity|].
  destruct (while_loop_exits _ _ _ _ initial_step Hr) as [Hsteps Hreason].
  destruct (reason r); [exact Hreason|].
  destruct Hreason as [Hevs Hfive]. repeat split; [exact Hevs | exact Hfive | lia].
Qed.

Lemma loop_body_iterations r st : iterations (snd (loop_body r st)) = 1%nat.
Proof.
  unfold loop_body.
  destruct (camera r); try reflexivity.
  destruct (vision r) as [| |[|c s]]; try reflexivity.
  destruct (choose_movement _ _); reflexivity.
Qed.

Lemma iterations_app evs evs' :
  iterations (evs ++ evs') = (iterations evs + iterations evs')%nat.
Proof. unfold iterations. now rewrite filter_app, length_app. Qed.

Lemma while_loop_iterations fuel : forall env st r,
  while_loop fuel env st = Some r ->
  (iterations (events r) + step st)%nat = step (final r).
Proof.
  induction fuel as [|fuel IH]; intros env st r Hr.
  - cbn [while_loop] in Hr. destruct (step st <? max_steps)%nat; [discriminate|].
    injection Hr as <-. reflexivity.
  - cbn [while_loop] in Hr. destruct (step st <? max_steps)%nat.
    + pose proof (loop_body_step (env (S (step st))) st) as Hstep.
      pose proof (loop_body_iterations (env (S (step st))) st) as Hone.
      destruct (loop_body _ st) as [[[] st'] evs]; cbn [fst snd] in Hstep, Hone.
      * destruct (while_loop fuel env st') as [r'|] eqn:Hr'; [|discriminate].
        injection Hr as <-. cbn [events final]. rewrite iterations_app, Hone.
        pose proof (IH env st' r' Hr'). lia.
      * injection Hr as <-. cbn [events final]. lia.
    + injection Hr as <-. reflexivity.
Qed.

(** C4, as the code has it: an iteration without a camera frame or without a
    usable answer of the vision model sleeps one second and goes on to the
    next iteration; it issues no command and leaves [distance_moved] and
    [consecutive_stops] alone, but [step] has already been advanced, so the
    iteration counts toward [max_steps]: in every run the final step count
    is the number of iterations, failed ones included, and it never exceeds
    [max_steps]. *)
Theorem failed_iteration_consumes_step :
  (forall r st,
     iteration_fails r = true ->
     fst (fst (loop_body r st)) = Continue /\
     step (snd (fst (loop_body r st))) = S (step st) /\
     distance_moved (snd (fst (loop_body r st))) = distance_moved st /\
     consecutive_stops (snd (fst (loop_body r st))) = consecutive_stops st /\
     last (snd (loop_body r st)) = Some (Sleep 1) /\
     primitives (snd (loop_body r st)) = []) /\
  (forall env r,
     navigate_robot env = Some r ->
     iterations (events r) = step (final r) /\ (step (final r) <= max_steps)%nat).
Proof.
  split.
  - intros r st H. destruct (loop_body_failed r st H) as (evs & -> & [-> | ->]);
      now repeat split.
  - intros env r. unfold navigate_robot.
    destruct (while_loop max_steps env initial_nav_state) as [r'|] eqn:Hr'; [|discriminate].
    intros [= <-]. cbn [events final].
    pose proof (while_loop_iterations _ _ _ _ Hr') as Hit.
    pose proof (while_loop_exits _ _ _ _ initial_step Hr') as [Hsteps _].
    rewrite iterations_app.
    change (iterations [PrintTotalSteps (step (final r'));
                        PrintTotalDistance (distance_moved (final r'))]) with 0%nat.
    change (step initial_nav_state) with 0%nat in Hit. lia.
Qed.

(** ** Escalation when blocked *)

Lemma escalation_table :
  escalation 1 = "turn_left"%string /\ escalation 2 = "turn_left"%string /\
  escalation 3 = "turn_right"%string /\ escalation 4 = "turn_right"%string /\
  forall count, (5 <= count)%nat -> escalation count = "stop"%string.
Proof.
  repeat split. intros count H.
  do 5 (destruct count as [|count]; [lia|]). reflexivity.
Qed.

Lemma blocked_iteration_effect r st :
  blocked_iteration r = true ->
  let count := S (consecutive_stops st) in
  consecutive_stops (snd (fst (loop_body r st))) = count /\
  step (snd (fst (loop_body r st))) = S (step st) /\
  distance_moved (snd (fst (loop_body r st))) = distance_moved st /\
  primitives (snd (loop_body r st)) = [escalation count] /\
  fst (fst (loop_body r st)) = (if (count <=? 4)%nat then Continue else Break).
Proof.
  intros H count. rewrite (loop_body_blocked r st H). subst count.
  destruct (consecutive_stops st) as [|[|[|[|n]]]]; repeat split.
Qed.

Lemma five_blocked_iterations fuel env st :
  consecutive_stops st = 0%nat ->
  (step st + 5 <= max_steps)%nat ->
  (5 <= fuel)%nat ->
  (forall k, (1 <= k <= 5)%nat -> blocked_iteration (env (k + step st)%nat) = true) ->
  exists r,
    while_loop fuel env st = Some r /\
    reason r = Stopped /\
    primitives (events r)
      = ["turn_left"; "turn_left"; "turn_right"; "turn_right"; "stop"]%string /\
    step (final r) = (step st + 5)%nat /\
    consecutive_stops (final r) = 5%nat.
Proof.
  intros Hcs Hsteps Hfuel Hblocked.
  destruct st as [s d c]. cbn in Hcs, Hsteps, Hblocked. subst c.
  do 5 (destruct fuel as [|fuel]; [lia|]).
  pose proof (Hblocked 1%nat ltac:(lia)) as H1.
  pose proof (Hblocked 2%nat ltac:(lia)) as H2.
  pose proof (Hblocked 3%nat ltac:(lia)) as H3.
  pose proof (Hblocked 4%nat ltac:(lia)) as H4.
  pose proof (Hblocked 5%nat ltac:(lia)) as H5.
  cbn [Nat.add] in H1, H2, H3, H4, H5.
  rewrite while_loop_iterate by (cbn; lia). cbn [step].
  rewrite (loop_body_blocked _ _ H1). cbn [consecutive_stops step distance_moved Nat.leb].
  rewrite while_loop_iterate by (cbn; lia). cbn [step].
  rewrite (loop_body_blocked _ _ H2). cbn [consecutive_stops step distance_moved Nat.leb].
  rewrite while_loop_iterate by (cbn; lia). cbn [step].
  rewrite (loop_body_blocked _ _ H3). cbn [consecutive_stops step distance_moved Nat.leb].
  rewrite while_loop_iterate by (cbn; lia). cbn [step].
  rewrite (loop_body_blocked _ _ H4). cbn [consecutive_stops step distance_moved Nat.leb].
  rewrite while_loop_iterate by (cbn; lia). cbn [step].
  rewrite (loop_body_blocked _ _ H5). cbn [consecutive_stops step distance_moved Nat.leb].
  eexists. split; [reflexivity|]. cbn [reason final events step consecutive_stops].
  repeat split. lia.
Qed.

(** C3: a BLOCKED decision raises [consecutive_stops] by one and issues
    turn_left at counts 1 and 2, turn_right at counts 3 and 4, and stop from
    count 5 on, where the loop breaks.  Five BLOCKED iterations in a row
    from a count of 0 issue turn_left, turn_left, turn_right, turn_right,
    stop in this order and the loop ends with the fifth; so does the run
    whose first five responses are the two-line text "BLOCKED / wall
    ahead". *)
Theorem blocked_escalation :
  (forall r st,
     blocked_iteration r = true ->
     let count := S (consecutive_stops st) in
     consecutive_stops (snd (fst (loop_body r st))) = count /\
     step (snd (fst (loop_body r st))) = S (step st) /\
     distance_moved (snd (fst (loop_body r st))) = distance_moved st /\
     primitives (snd (loop_body r st)) = [escalation count] /\
     fst (fst (loop_body r st)) = (if (count <=? 4)%nat then Continue else Break)) /\
  (escalation 1 = "turn_left"%string /\ escalation 2 = "turn_left"%string /\
   escalation 3 = "turn_right"%string /\ escalation 4 = "turn_right"%string /\
   forall count, (5 <= count)%nat -> escalation count = "stop"%string) /\
  (forall fuel env st,
     consecutive_stops st = 0%nat ->
     (step st + 5 <= max_steps)%nat ->
     (5 <= fuel)%nat ->
     (forall k, (1 <= k <= 5)%nat -> blocked_iteration (env (k + step st)%nat) = true) ->
     exists r,
       while_loop fuel env st = Some r /\
       reason r = Stopped /\
       primitives (events r)
         = ["turn_left"; "turn_left"; "turn_right"; "turn_right"; "stop"]%string /\
       step (final r) = (step st + 5)%nat /\
       consecutive_stops (final r) = 5%nat) /\
  (forall env,
     (forall k, (1 <= k <= 5)%nat ->
        camera (env k) = CameraOk /\ vision (env k) = VisionOk blocked_response) ->
     exists r,
       navigate_robot env = Some r /\
       reason r = Stopped /\
       primitives (events r)
         = ["turn_left"; "turn_left"; "turn_right"; "turn_right"; "stop"]%string /\
       step (final r) = 5%nat /\
       consecutive_stops (final r) = 5%nat).
Proof.
  split; [exact blocked_iteration_effect|].
  split; [exact escalation_table|].
  split; [exact five_blocked_iterations|].
  intros env Henv.
  destruct (five_blocked_iterations max_steps env initial_nav_state)
    as (r & Hr & Hreason & Hprims & Hstep & Hcs).
  - reflexivity.
  - unfold max_steps. cbn. lia.
  - unfold max_steps. lia.
  - intros k Hk. destruct (Henv (k + step initial_nav_state)%nat) as [Hc Hv].
    { cbn. lia. }
    unfold blocked_iteration. now rewrite Hc, Hv.
  - unfold navigate_robot. rewrite Hr. eexists. split; [reflexivity|]. cbn.
    repeat split; try assumption.
    unfold primitives in *. rewrite omap_app, Hprims. reflexivity.
Qed.

Example blocked_five_times :
  option_map (fun r => (reason r, primitives (events r), step (final r)))
    (navigate_robot (fun _ => blocked_reply))
  = Some (Stopped, ["turn_left"; "turn_left"; "turn_right"; "turn_right"; "stop"]%string, 5%nat).
Proof. reflexivity. Qed.

(** ** The object store *)

Lemma alloc_fresh d (h : heap) : h !! fst (alloc d h) = None.
Proof. unfold alloc. cbn. apply not_elem_of_dom, is_fresh. Qed.

Lemma alloc_lookup d (h : heap) : snd (alloc d h) !! fst (alloc d h) = Some d.
Proof. unfold alloc. cbn. apply lookup_insert_eq. Qed.

Lemma alloc_other d (h : heap) a : a <> fst (alloc d h) -> snd (alloc d h) !! a = h !! a.
Proof. unfold alloc. cbn. intros Hne. now apply lookup_insert_ne. Qed.

Lemma dict_copy_spec x (h : heap) d :
  h !! x = Some d ->
  exists a h',
    dict_copy x h = Some (a, h') /\
    a <> x /\ h !! a = None /\ h' !! a = Some d /\
    forall b, b <> a -> h' !! b = h !! b.
Proof.
  intros Hx. unfold dict_copy. rewrite Hx.
  exists (fst (alloc d h)), (snd (alloc d h)).
  split; [now destruct (alloc d h)|].
  pose proof (alloc_fresh d h) as Hfresh.
  split; [intros E; rewrite E in Hfresh; congruence|].
  split; [exact Hfresh|]. split; [apply alloc_lookup|].
  intros b Hb. now apply alloc_other.
Qed.

Lemma setitem_other x k v (h : heap) a : a <> x -> setitem x k v h !! a = h !! a.
Proof. intros Hne. unfold setitem. now apply lookup_alter_ne. Qed.

Lemma delitem_other x k (h : heap) a : a <> x -> delitem x k h !! a = h !! a.
Proof. intros Hne. unfold delitem. now apply lookup_alter_ne. Qed.

(** * More properties of the code *)

(** ** The command window, continued *)

Lemma deadline_after_call now vx vy yaw_rate d self :
  now <= _command_until_walltime (set_base_command now vx vy yaw_rate d self).
Proof.
  cbn. rewrite <- (Qplus_0_r now) at 1.
  apply Qplus_le_compat; [apply Qle_refl | apply max0_nonneg].
Qed.

(** X1: the window of a command, against the deadline the bridge has
    stored.  The deadline is never before the time of the call; every read
    up to and including the deadline returns the command that was set,
    every read after it returns (0,0,0), and a read that is not after the
    call is inside the window whatever the duration. *)
Theorem command_window (now vx vy yaw_rate d now' : Q) (self : SimBridge) :
  let self' := set_base_command now vx vy yaw_rate d self in
  _base_command self' = (vx, vy, yaw_rate) /\
  now <= _command_until_walltime self' /\
  (now' <= _command_until_walltime self' ->
     fst (get_base_command now' self') = (vx, vy, yaw_rate)) /\
  (_command_until_walltime self' < now' -> fst (get_base_command now' self') = (0, 0, 0)) /\
  (now' <= now -> fst (get_base_command now' self') = (vx, vy, yaw_rate)).
Proof.
  intros self'. pose proof (deadline_after_call now vx vy yaw_rate d self) as Hu.
  split; [reflexivity|]. split; [exact Hu|].
  split; [|split].
  - intros H. rewrite get_base_command_active; [reflexivity|]. now apply Qle_not_lt.
  - apply get_base_command_expired.
  - intros H. rewrite get_base_command_active; [reflexivity|].
    apply Qle_not_lt. now apply Qle_trans with now.
Qed.

Lemma command_window_witness :
  _base_command (set_base_command 10 1 0 0 2 (fst (new_bridge ∅))) = (1, 0, 0) /\
  10 <= _command_until_walltime (set_base_command 10 1 0 0 2 (fst (new_bridge ∅))) /\
  fst (get_base_command 12 (set_base_command 10 1 0 0 2 (fst (new_bridge ∅)))) = (1, 0, 0) /\
  fst (get_base_command 12.5 (set_base_command 10 1 0 0 2 (fst (new_bridge ∅)))) = (0, 0, 0).
Proof.
  destruct (command_window 10 1 0 0 2 12 (fst (new_bridge ∅))) as (Hv & Hu & Hin & _ & _).
  destruct (command_window 10 1 0 0 2 12.5 (fst (new_bridge ∅))) as (_ & _ & _ & Hout & _).
  split; [exact Hv|]. split; [exact Hu|].
  split; [apply Hin; discriminate | apply Hout; reflexivity].
Defined.

(** X2: the deadline of a command is never before the time of the call,
    whatever the duration, and a read at the very clock value of the call
    returns the command: with a zero or negative duration the command is
    still delivered to a tick that reads the same instant. *)
Theorem command_readable_at_its_instant (now vx vy yaw_rate d : Q) (self : SimBridge) :
  now <= _command_until_walltime (set_base_command now vx vy yaw_rate d self) /\
  fst (get_base_command now (set_base_command now vx vy yaw_rate d self))
  = (vx, vy, yaw_rate).
Proof.
  split; [apply deadline_after_call|].
  rewrite get_base_command_active; [reflexivity|].
  apply Qle_not_lt, deadline_after_call.
Qed.

(** X3: after [stop], through the MCP tool or the [/stop] route, every read
    returns (0,0,0) at every clock value, earlier, equal or later. *)
Theorem stop_reads_zero (now now' : Q) (bridge : SimBridge) :
  fst (stop_tool now bridge) = true /\
  fst (get_base_command now' (snd (stop_tool now bridge))) = (0, 0, 0) /\
  forall py_float encode query h,
    exists bridge',
      do_GET py_float encode now "/stop" query bridge h
      = Some ({| status := 200; body := BodyOk |}, bridge', h) /\
      fst (get_base_command now' bridge') = (0, 0, 0).
Proof.
  split; [reflexivity|].
  assert (Hz : fst (get_base_command now' (set_base_command now 0 0 0 0 bridge)) = (0, 0, 0)).
  { unfold get_base_command. now destruct (Qgtb _ _). }
  split; [exact Hz|].
  intros py_float encode query h. eexists. split; [reflexivity | exact Hz].
Qed.

(** ** The direction translator, continued *)

(** X4: a translated direction moves along one axis only: two of the three
    components are 0 and the third is the speed, the yaw rate, or the
    negation of one of them. *)
Theorem direction_single_axis (direction : pystr) (speed yaw_rate vx vy wz : Q) :
  direction_to_command direction speed yaw_rate = Return (vx, vy, wz) ->
  (vy = 0 /\ wz = 0 /\ (vx = speed \/ vx = - speed \/ vx = 0)) \/
  (vx = 0 /\ wz = 0 /\ (vy = speed \/ vy = - speed)) \/
  (vx = 0 /\ vy = 0 /\ (wz = yaw_rate \/ wz = - yaw_rate)).
Proof.
  unfold direction_to_command.
  repeat (destruct (in_set _ _); [intros [= <- <- <-]; tauto|]).
  discriminate.
Qed.

(** X5: an empty direction, or one made of white space only, is refused
    with the ValueError whatever the speed and yaw rate; this is what the
    [/move] route runs into when the request has no direction parameter. *)
Theorem blank_direction_refused (direction : pystr) (speed yaw_rate : Q) :
  all_space direction = true ->
  direction_to_command direction speed yaw_rate = Raise (ValueError unknown_direction_msg).
Proof.
  intros H. unfold direction_to_command, strip.
  now rewrite (rstrip_all_space _ H).
Qed.

(** ** Move requests *)

Lemma handle_move_status py_float now query bridge :
  status (fst (handle_move py_float now query bridge)) = 200%nat \/
  (status (fst (handle_move py_float now query bridge)) = 400%nat /\
   snd (handle_move py_float now query bridge) = bridge).
Proof.
  unfold handle_move.
  destruct (py_float (query_param query "length" (py "0.2"))) as [length|[msg]]; [|now right].
  destruct (py_float (query_param query "speed" (py "1.0"))) as [speed|[msg]]; [|now right].
  destruct (py_float (query_param query "yaw_rate" (py "0.8"))) as [yaw_rate|[msg]]; [|now right].
  destruct (direction_to_command _ speed yaw_rate) as [[[vx vy] wz]|[msg]]; [now left|now right].
Qed.

(** X6: a move request that is refused leaves the bridge exactly as it
    was: [giveMoveCommand] that raises returns the bridge it was given, and
    the [/move] route answers 200 or 400 and on 400 (a number that does not
    parse, a missing or unknown direction) the bridge is unchanged. *)
Theorem refused_move_keeps_bridge
    (now : Q) (direction : pystr) (length speed yaw_rate : Q) (bridge : SimBridge)
    (py_float : pystr -> pyresult Q) (query : gmap string (list pystr)) :
  (forall e, fst (giveMoveCommand now direction length speed yaw_rate bridge) = Raise e ->
     snd (giveMoveCommand now direction length speed yaw_rate bridge) = bridge) /\
  (status (fst (handle_move py_float now query bridge)) = 200%nat \/
   (status (fst (handle_move py_float now query bridge)) = 400%nat /\
    snd (handle_move py_float now query bridge) = bridge)) /\
  (query !! "direction"%string = None ->
   status (fst (handle_move py_float now query bridge)) = 400%nat).
Proof.
  split; [|split; [apply handle_move_status|]].
  - unfold giveMoveCommand.
    destruct (direction_to_command direction speed yaw_rate) as [[[vx vy] wz]|e'];
      [discriminate | reflexivity].
  - intros Hnone. unfold handle_move, query_param. rewrite Hnone.
    destruct (py_float _) as [l|[msg]]; [|reflexivity].
    destruct (py_float _) as [s|[msg]]; [|reflexivity].
    destruct (py_float _) as [y|[msg]]; [|reflexivity].
    reflexivity.
Qed.

(** X7: the vector in the [applied] record of [giveMoveCommand] is what
    the bridge stores and delivers: every read from the call up to the
    stored deadline returns exactly that vector, and every read after the
    stored deadline returns (0,0,0). *)
Theorem applied_vector_is_delivered
    (now : Q) (direction : pystr) (length speed yaw_rate : Q) (bridge : SimBridge)
    (r : move_result) (now' : Q) :
  fst (giveMoveCommand now direction length speed yaw_rate bridge) = Return r ->
  let bridge' := snd (giveMoveCommand now direction length speed yaw_rate bridge) in
  _base_command bridge'
    = (applied_vx (applied r), applied_vy (applied r), applied_yaw_rate (applied r)) /\
  now <= _command_until_walltime bridge' /\
  (now' <= _command_until_walltime bridge' ->
     fst (get_base_command now' bridge')
     = (applied_vx (applied r), applied_vy (applied r), applied_yaw_rate (applied r))) /\
  (_command_until_walltime bridge' < now' -> fst (get_base_command now' bridge') = (0, 0, 0)).
Proof.
  unfold giveMoveCommand.
  destruct (direction_to_command direction speed yaw_rate) as [[[vx vy] wz]|e];
    [|discriminate].
  cbn [fst snd]. intros [= <-]. cbn [applied applied_vx applied_vy applied_yaw_rate].
  split; [reflexivity|].
  split; [apply deadline_after_call|].
  split.
  - intros H. rewrite get_base_command_active; [reflexivity|]. now apply Qle_not_lt.
  - apply get_base_command_expired.
Qed.

(** ** The debug HTTP server *)

(** X8: the [/move] route is [giveMoveCommand] on the parameters of the
    query, with 0.2 s, 1.0 m/s and 0.8 rad/s for the ones that are missing
    and the empty direction when there is none: same bridge afterwards,
    the same [applied] record under status 200, and status 400 with the
    message of the ValueError when the direction is refused. *)
Theorem move_route_is_giveMoveCommand
    (py_float : pystr -> pyresult Q) (encode : frame -> http_image)
    (now : Q) (query : gmap string (list pystr)) (bridge : SimBridge) (h : heap)
    (length speed yaw_rate : Q) :
  py_float (query_param query "length" (py "0.2")) = Return length ->
  py_float (query_param query "speed" (py "1.0")) = Return speed ->
  py_float (query_param query "yaw_rate" (py "0.8")) = Return yaw_rate ->
  do_GET py_float encode now "/move" query bridge h =
  Some
    match giveMoveCommand now (query_param query "direction" (py "")) length speed yaw_rate bridge with
    | (Return r, bridge') => ({| status := 200; body := BodyApplied (applied r) |}, bridge', h)
    | (Raise (ValueError msg), bridge') => ({| status := 400; body := BodyError msg |}, bridge', h)
    end.
Proof.
  intros Hl Hs Hy. unfold do_GET.
  change ("/move" =? "")%string with false. cbv iota.
  change (in_tuple "/move" ["/"; ""]%string) with false. cbv iota.
  change ("/move" =? "/state")%string with false.
  change ("/move" =? "/stop")%string with false.
  change ("/move" =? "/move")%string with true. cbv iota.
  unfold handle_move, giveMoveCommand. rewrite Hl, Hs, Hy.
  destruct (direction_to_command _ speed yaw_rate) as [[[vx vy] wz]|[msg]]; reflexivity.
Qed.

Lemma dict_copy_keeps x (h : heap) a' h' :
  dict_copy x h = Some (a', h') -> forall a d, h !! a = Some d -> h' !! a = Some d.
Proof.
  unfold dict_copy. destruct (h !! x) as [dx|]; [|discriminate].
  intros Hcopy a d Ha.
  assert (Hpair : alloc dx h = (a', h')) by congruence.
  assert (Hh' : h' = snd (alloc dx h)) by (now rewrite Hpair).
  rewrite Hh', alloc_other; [exact Ha|].
  intros ->. rewrite alloc_fresh in Ha. discriminate.
Qed.

(** X9: what a GET can do.  Its status is 200, 400, 404, 500 or 503; it
    never changes the stored snapshot reference or the camera frame, and
    never changes or removes a dict object that exists; and it leaves the
    whole bridge as it was unless it is a [/move] or [/stop] that answers
    200.  Every path outside the five routes answers 404. *)
Theorem do_GET_effects
    (py_float : pystr -> pyresult Q) (encode : frame -> http_image)
    (now : Q) (parsed_path : string) (query : gmap string (list pystr))
    (bridge : SimBridge) (h : heap)
    (response : http_response) (bridge' : SimBridge) (h' : heap) :
  do_GET py_float encode now parsed_path query bridge h = Some (response, bridge', h') ->
  In (status response) [200; 400; 404; 500; 503]%nat /\
  _last_state bridge' = _last_state bridge /\
  _camera_rgba bridge' = _camera_rgba bridge /\
  (forall a d, h !! a = Some d -> h' !! a = Some d) /\
  (status response <> 200%nat \/ (parsed_path <> "/move" /\ parsed_path <> "/stop")%string ->
   bridge' = bridge) /\
  (~ In parsed_path [""; "/"; "/state"; "/stop"; "/move"; "/camera"]%string ->
   status response = 404%nat).
Proof.
  unfold do_GET.
  set (path := if String.eqb parsed_path "" then "/"%string else parsed_path).
  assert (Hpath : path = "/"%string \/ path = parsed_path).
  { unfold path. destruct (String.eqb parsed_path ""); auto. }
  destruct (in_tuple path ["/"; ""]%string) eqn:Hindex.
  { intros [= <- <- <-]. cbn. repeat split; auto.
    apply in_tuple_In in Hindex. intros Hnot. exfalso. apply Hnot.
    cbn in Hindex. destruct Hpath as [Hp|Hp]; rewrite Hp in Hindex.
    - unfold path in Hp. destruct (String.eqb_spec parsed_path ""); [subst; cbn; auto|].
      rewrite Hp. cbn. auto.
    - destruct Hindex as [<-|[<-|[]]]; cbn; auto. }
  assert (Hsame : path = parsed_path).
  { destruct Hpath as [Hp|Hp]; [|exact Hp]. rewrite Hp in Hindex. discriminate. }
  rewrite Hsame. clear path Hpath Hindex Hsame.
  destruct (String.eqb_spec parsed_path "/state") as [->|Hstate].
  { destruct (get_state bridge h) as [[snapshot h1]|] eqn:Hg; [|discriminate].
    intros [= <- <- <-]. cbn. repeat split; auto.
    - intros a d. now apply (dict_copy_keeps _ _ _ _ Hg).
    - intros Hnot. exfalso. apply Hnot. cbn. tauto. }
  destruct (String.eqb_spec parsed_path "/stop") as [->|Hstop].
  { intros [= <- <- <-]. cbn. repeat split; auto.
    - intros [Hs|[_ Hs]]; congruence.
    - intros Hnot. exfalso. apply Hnot. cbn. tauto. }
  destruct (String.eqb_spec parsed_path "/move") as [->|Hmove].
  { pose proof (handle_move_status py_float now query bridge) as Hst.
    assert (Hfields : _last_state (snd (handle_move py_float now query bridge))
                        = _last_state bridge /\
                      _camera_rgba (snd (handle_move py_float now query bridge))
                        = _camera_rgba bridge).
    { unfold handle_move.
      destruct (py_float _) as [l|[msg]]; [|now split].
      destruct (py_float _) as [s|[msg]]; [|now split].
      destruct (py_float _) as [y|[msg]]; [|now split].
      destruct (direction_to_command _ s y) as [[[vx vy] wz]|[msg]]; now split. }
    destruct (handle_move py_float now query bridge) as [resp b1]. cbn [fst snd] in Hst, Hfields.
    intros [= <- <- <-]. destruct Hfields as [Hls Hcam].
    split; [destruct Hst as [->|[-> _]]; cbn; tauto|].
    split; [exact Hls|]. split; [exact Hcam|]. split; [auto|]. split.
    - intros [Hs|[Hm _]]; [|congruence]. destruct Hst as [Hok|[_ Hb]]; congruence.
    - intros Hnot. exfalso. apply Hnot. cbn. tauto. }
  destruct (String.eqb_spec parsed_path "/camera") as [->|Hcamera].
  { intros [= <- <- <-]. repeat split; auto.
    - unfold handle_camera. destruct (get_camera_rgba bridge); [|cbn; tauto].
      destruct (encode _); cbn; tauto.
    - intros Hnot. exfalso. apply Hnot. cbn. tauto. }
  intros [= <- <- <-]. cbn. repeat split; auto.
Qed.

(** ** The physics callback *)

Lemma on_physics_step_cases now step_size bridge self :
  on_physics_step now step_size bridge self =
    ({| first_step := false; reset_needed := reset_needed self |},
     [spot_initialize; camera_initialize]) /\ first_step self = true
  \/ on_physics_step now step_size bridge self =
       ({| first_step := true; reset_needed := false |}, [world_reset])
     /\ first_step self = false /\ reset_needed self = true
  \/ on_physics_step now step_size bridge self =
       (self, [spot_forward step_size (fst (get_base_command now bridge))])
     /\ first_step self = false /\ reset_needed self = false.
Proof.
  unfold on_physics_step.
  destruct (first_step self); [now left|].
  destruct (reset_needed self); [right; now left|].
  right; right. destruct (fst (get_base_command now bridge)) as [[vx vy] wz]. auto.
Qed.

Lemma physics_ticks_cons t ticks self :
  physics_ticks (t :: ticks) self =
  (fst (physics_ticks ticks
          (fst (on_physics_step (tick_now t) (tick_step_size t) (tick_bridge t)
                  (note_stopped (tick_world_stopped t) self)))),
   snd (on_physics_step (tick_now t) (tick_step_size t) (tick_bridge t)
          (note_stopped (tick_world_stopped t) self))
   ++ snd (physics_ticks ticks
             (fst (on_physics_step (tick_now t) (tick_step_size t) (tick_bridge t)
                     (note_stopped (tick_world_stopped t) self))))).
Proof.
  cbn [physics_ticks].
  destruct (on_physics_step _ _ _ _) as [self' evs]. cbn [fst snd].
  destruct (physics_ticks ticks self') as [self'' evs']. reflexivity.
Qed.

Lemma note_stopped_first_step is_stopped self :
  first_step (note_stopped is_stopped self) = first_step self.
Proof. now destruct is_stopped. Qed.

(** X10: ticks that come after the deadline of the bridge they read never
    drive the robot: whatever the state of the simulation and whether or
    not the world was stopped in between, every [spot.forward] of such
    ticks gets (0,0,0). *)
Theorem stale_command_never_applied (ticks : list tick) (self : SpotSimulation) :
  Forall expired_at ticks ->
  Forall forwards_zero (snd (physics_ticks ticks self)).
Proof.
  revert self. induction ticks as [|t ticks IH]; intros self Hexp; [constructor|].
  inversion Hexp as [|? ? Ht Hrest]; subst.
  rewrite physics_ticks_cons. cbn [snd]. apply Forall_app. split; [|now apply IH].
  destruct (on_physics_step_cases (tick_now t) (tick_step_size t) (tick_bridge t)
              (note_stopped (tick_world_stopped t) self)) as [[-> _]|[[-> _]|[-> _]]];
    cbn [snd]; repeat constructor.
  cbn. now apply get_base_command_expired.
Qed.

Lemma stale_command_never_applied_witness :
  Forall expired_at example_ticks /\
  Forall forwards_zero (snd (physics_ticks example_ticks new_simulation)).
Proof.
  assert (H : Forall expired_at example_ticks) by (repeat constructor).
  split; [exact H|].
  apply (stale_command_never_applied example_ticks new_simulation H).
Defined.

Example example_ticks_trace :
  snd (physics_ticks example_ticks new_simulation) =
  [spot_initialize; camera_initialize; spot_forward 0.002 (0, 0, 0); world_reset;
   spot_initialize; camera_initialize; spot_forward 0.002 (0, 0, 0)].
Proof. reflexivity. Qed.

Lemma physics_ticks_order ticks : forall self,
  reset_then_initialize (snd (physics_ticks ticks self)) = true /\
  (first_step self = true ->
   hd_error (snd (physics_ticks ticks self)) = None \/
   hd_error (snd (physics_ticks ticks self)) = Some spot_initialize).
Proof.
  induction ticks as [|t ticks IH]; intros self; [cbn; auto|].
  rewrite physics_ticks_cons. cbn [snd].
  destruct (on_physics_step_cases (tick_now t) (tick_step_size t) (tick_bridge t)
              (note_stopped (tick_world_stopped t) self))
    as [[-> Hf]|[[-> (Hf & Hr)]|[-> (Hf & Hr)]]];
    rewrite note_stopped_first_step in Hf; cbn [fst snd].
  - destruct (IH {| first_step := false;
                    reset_needed := reset_needed (note_stopped (tick_world_stopped t) self) |})
      as [Hrest _].
    split; [exact Hrest | now right].
  - destruct (IH {| first_step := true; reset_needed := false |}) as [Hrest Hhead].
    split; [|congruence].
    specialize (Hhead eq_refl). cbn [app reset_then_initialize].
    destruct (snd (physics_ticks ticks _)) as [|e rest]; [reflexivity|].
    destruct Hhead as [Hhead|Hhead]; [discriminate|].
    injection Hhead as ->. exact Hrest.
  - destruct (IH (note_stopped (tick_world_stopped t) self)) as [Hrest _].
    split; [exact Hrest | congruence].
Qed.

(** X11: the robot is initialised before it is driven.  From a new
    simulation the first thing the ticks do is [spot.initialize]; every
    [world.reset] is followed by [spot.initialize] on the next tick, never
    by a command; and a tick on which the world is seen stopped does not
    drive the robot. *)
Theorem initialised_before_driven (ticks : list tick) (self : SpotSimulation) :
  reset_then_initialize (snd (physics_ticks ticks self)) = true /\
  (hd_error (snd (physics_ticks ticks new_simulation)) = None \/
   hd_error (snd (physics_ticks ticks new_simulation)) = Some spot_initialize) /\
  (forall t,
     tick_world_stopped t = true ->
     existsb is_forward
       (snd (on_physics_step (tick_now t) (tick_step_size t) (tick_bridge t)
               (note_stopped (tick_world_stopped t) self))) = false).
Proof.
  split; [apply physics_ticks_order|].
  split; [now apply physics_ticks_order|].
  intros t Ht. rewrite Ht. unfold note_stopped, on_physics_step. cbn.
  now destruct (first_step self).
Qed.

(** ** Publishing the state *)

Lemma alloc_keeps d (h : heap) a d' :
  h !! a = Some d' -> snd (alloc d h) !! a = Some d'.
Proof.
  intros Ha. rewrite alloc_other; [exact Ha|].
  intros ->. rewrite alloc_fresh in Ha. discriminate.
Qed.

Lemma alloc_pair d (h : heap) : alloc d h = (fst (alloc d h), snd (alloc d h)).
Proof. reflexivity. Qed.

(** X12: publishing always succeeds and only adds dict objects: every
    object a reader already holds, nested dicts included, is left as it
    was.  The command and its deadline are untouched.  The snapshot the
    next reader gets carries the given timestamp, the command in force at
    the read (zero once expired) under [base_command], and the pose and
    camera summary in nested dicts that did not exist before. *)
Theorem publish_snapshot
    (now_read now_stamp : Q) (rgba : sensor (option frame)) (pose summary : pydict)
    (bridge : SimBridge) (h : heap) :
  exists bridge' h',
    publish now_read now_stamp rgba pose summary bridge h = Some (bridge', h') /\
    (forall a d, h !! a = Some d -> h' !! a = Some d) /\
    _base_command bridge' = _base_command bridge /\
    _command_until_walltime bridge' = _command_until_walltime bridge /\
    h !! _last_state bridge' = None /\
    getitem h' (_last_state bridge') "timestamp" = Some (VFloat now_stamp) /\
    (exists a, getitem h' (_last_state bridge') "base_command" = Some (VRef a) /\
               h !! a = None /\
               h' !! a = Some (base_command_dict (fst (get_base_command now_read bridge)))) /\
    (exists a, getitem h' (_last_state bridge') "spot" = Some (VRef a) /\
               h !! a = None /\ h' !! a = Some pose) /\
    (exists a, getitem h' (_last_state bridge') "camera" = Some (VRef a) /\
               h !! a = None /\ h' !! a = Some summary).
Proof.
  unfold publish.
  set (v := fst (get_base_command now_read bridge)).
  set (b1 := match rgba with
             | SensorReads camera_rgba => set_camera_rgba camera_rgba bridge
             | SensorRaises => bridge
             end).
  assert (Hb1 : _base_command b1 = _base_command bridge /\
                _command_until_walltime b1 = _command_until_walltime bridge).
  { unfold b1. now destruct rgba. }
  rewrite (alloc_pair pose h).
  set (spot := fst (alloc pose h)). set (h1 := snd (alloc pose h)).
  rewrite (alloc_pair (base_command_dict v) h1).
  set (bc := fst (alloc (base_command_dict v) h1)).
  set (h2 := snd (alloc (base_command_dict v) h1)).
  rewrite (alloc_pair summary h2).
  set (cam := fst (alloc summary h2)). set (h3 := snd (alloc summary h2)).
  set (state_dict := <["timestamp"%string := VFloat now_stamp]> _).
  rewrite (alloc_pair state_dict h3).
  set (state := fst (alloc state_dict h3)). set (h4 := snd (alloc state_dict h3)).
  assert (Hstate : h4 !! state = Some state_dict) by apply alloc_lookup.
  unfold update_state, dict_copy. rewrite Hstate. rewrite (alloc_pair state_dict h4).
  set (kept := fst (alloc state_dict h4)). set (h5 := snd (alloc state_dict h4)).
  assert (Hup : forall a d, h !! a = Some d -> h5 !! a = Some d).
  { intros a d Ha. do 5 apply alloc_keeps. exact Ha. }
  assert (Hspot : h5 !! spot = Some pose).
  { do 4 apply alloc_keeps. apply alloc_lookup. }
  assert (Hbc : h5 !! bc = Some (base_command_dict v)).
  { do 3 apply alloc_keeps. apply alloc_lookup. }
  assert (Hcam : h5 !! cam = Some summary).
  { do 2 apply alloc_keeps. apply alloc_lookup. }
  assert (Hkept : h5 !! kept = Some state_dict) by apply alloc_lookup.
  exists {| _last_state := kept; _camera_rgba := _camera_rgba b1;
            _base_command := _base_command b1;
            _command_until_walltime := _command_until_walltime b1 |}, h5.
  split; [reflexivity|]. split; [exact Hup|]. cbn [_base_command _command_until_walltime _last_state].
  split; [apply Hb1|]. split; [apply Hb1|].
  assert (Hno : forall (hh : heap) a, (forall b d, h !! b = Some d -> hh !! b = Some d) ->
                  hh !! a = None -> h !! a = None).
  { intros hh a Hmono Ha. destruct (h !! a) as [d'|] eqn:E; [|reflexivity].
    rewrite (Hmono a d' E) in Ha. discriminate. }
  split.
  { apply (Hno h4 kept); [|apply alloc_fresh].
    intros b d Hbd. do 4 apply alloc_keeps. exact Hbd. }
  unfold getitem. rewrite Hkept.
  split; [reflexivity|].
  split.
  { exists bc. split; [reflexivity|]. split; [|exact Hbc].
    apply (Hno h1 bc); [|apply alloc_fresh]. intros b d Hbd. now apply alloc_keeps. }
  split.
  { exists spot. split; [reflexivity|]. split; [apply alloc_fresh | exact Hspot]. }
  exists cam. split; [reflexivity|]. split; [|exact Hcam].
  apply (Hno h2 cam); [|apply alloc_fresh]. intros b d Hbd. now do 2 apply alloc_keeps.
Qed.

Example publish_after_expiry :
  match publish 13 13 (SensorReads None) ∅ ∅
          (set_base_command 10 1 0 0 2 (fst (new_bridge ∅))) (snd (new_bridge ∅)) with
  | Some (b, h) =>
      (getitem2 h (_last_state b) "base_command" "vx",
       fst (get_base_command 11 (set_base_command 10 1 0 0 2 (fst (new_bridge ∅)))))
  | None => (None, (0, 0, 0))
  end = (Some (VFloat 0), (1, 0, 0)).
Proof. vm_compute. reflexivity. Qed.

(** ** The decision loop, continued *)

Lemma loop_body_stops r st :
  (consecutive_stops st <= 4)%nat ->
  (consecutive_stops st <= step st)%nat ->
  match loop_body r st with
  | (Continue, st', _) =>
      (consecutive_stops st' <= 4)%nat /\ (consecutive_stops st' <= step st')%nat
  | (Break, st', _) =>
      consecutive_stops st' = 5%nat /\ (consecutive_stops st' <= step st')%nat
  end.
Proof.
  intros H4 Hs. unfold loop_body.
  destruct (camera r); try (cbn; lia).
  destruct (vision r) as [| |[|c s]]; try (cbn; lia).
  rewrite choose_movement_policy.
  destruct (policy _) as [[[primitive speed] duration]|]; [cbn; lia|].
  destruct (consecutive_stops st) as [|[|[|[|[|n]]]]]; cbn in *; lia.
Qed.

Lemma while_loop_stops fuel : forall env st r,
  (consecutive_stops st <= 4)%nat ->
  (consecutive_stops st <= step st)%nat ->
  while_loop fuel env st = Some r ->
  match reason r with
  | Stopped => consecutive_stops (final r) = 5%nat /\ (5 <= step (final r))%nat
  | MaxStepsReached => (consecutive_stops (final r) <= 4)%nat
  end.
Proof.
  induction fuel as [|fuel IH]; intros env st r H4 Hs Hr; cbn [while_loop] in Hr.
  - destruct (step st <? max_steps)%nat; [discriminate|]. now injection Hr as <-.
  - destruct (step st <? max_steps)%nat; [|now injection Hr as <-].
    pose proof (loop_body_stops (env (S (step st))) st H4 Hs) as Hbody.
    destruct (loop_body _ st) as [[[] st'] evs].
    + destruct (while_loop fuel env st') as [r'|] eqn:Hr'; [|discriminate].
      injection Hr as <-. cbn [reason final].
      now apply (IH env st' r').
    + injection Hr as <-. cbn [reason final]. lia.
Qed.

(** X13: [consecutive_stops] never passes 5.  A run that ends at
    [max_steps] ends with at most 4 BLOCKED decisions in a row; a run that
    ends stopped ends with exactly 5 and has taken at least 5 steps. *)
Theorem consecutive_stops_bounded (env : nat -> replies) :
  exists r,
    navigate_robot env = Some r /\
    match reason r with
    | Stopped => consecutive_stops (final r) = 5%nat /\ (5 <= step (final r))%nat
    | MaxStepsReached => (consecutive_stops (final r) <= 4)%nat
    end.
Proof.
  unfold navigate_robot.
  destruct (while_loop_total max_steps env initial_nav_state initial_fuel) as [r Hr].
  rewrite Hr. eexists. split; [reflexivity|]. cbn [reason final].
  apply (while_loop_stops max_steps env initial_nav_state r); [cbn; lia | cbn; lia | exact Hr].
Qed.

Lemma loop_body_credit r st :
  distance_moved (snd (fst (loop_body r st))) = add_credit (distance_moved st) (credit r).
Proof.
  unfold credit. destruct (iteration_fails r) eqn:Hf.
  - destruct (loop_body_failed r st Hf) as (evs & -> & _). reflexivity.
  - unfold iteration_fails in Hf.
    destruct (camera r) eqn:Hc; try discriminate.
    destruct (vision r) as [| |response] eqn:Hv; try discriminate.
    assert (Hne : response <> []) by (intros ->; discriminate).
    rewrite (loop_body_decided r st response Hc Hv Hne).
    destruct (decision_of response); cbn [policy];
      try (destruct (move r); reflexivity).
    destruct (S (consecutive_stops st) <=? 4)%nat; destruct (move r); reflexivity.
Qed.

Lemma while_loop_credit fuel : forall env st r,
  while_loop fuel env st = Some r ->
  distance_moved (final r)
  = accumulate env (step st) (step (final r) - step st) (distance_moved st).
Proof.
  induction fuel as [|fuel IH]; intros env st r Hr.
  - cbn [while_loop] in Hr. destruct (step st <? max_steps)%nat; [discriminate|].
    injection Hr as <-. cbn [final]. now rewrite Nat.sub_diag.
  - pose proof (while_loop_iterations _ _ _ _ Hr) as Hcount.
    cbn [while_loop] in Hr. destruct (step st <? max_steps)%nat.
    + pose proof (loop_body_step (env (S (step st))) st) as Hstep.
      pose proof (loop_body_credit (env (S (step st))) st) as Hcredit.
      destruct (loop_body _ st) as [[[] st'] evs]; cbn [fst snd] in Hstep, Hcredit.
      * destruct (while_loop fuel env st') as [r'|] eqn:Hr'; [|discriminate].
        injection Hr as <-. cbn [final] in *.
        pose proof (while_loop_iterations _ _ _ _ Hr') as Hcount'.
        rewrite (IH env st' r' Hr'), Hcredit, Hstep.
        replace (step (final r') - step st)%nat with (S (step (final r') - S (step st)))
          by lia.
        reflexivity.
      * injection Hr as <-. cbn [final]. rewrite Hstep.
        replace (S (step st) - step st)%nat with 1%nat by lia.
        now rewrite Hcredit.
    + injection Hr as <-. cbn [final]. now rewrite Nat.sub_diag.
Qed.

(** X14: the distance a run reports is what the credits of its iterations
    add up to, taken in the order of the iterations from 0: the reported
    [duration_s] of every acknowledged move decided as FORWARD, SLOW or by
    the fallback, and nothing for sidesteps, turns, refused or failed
    commands and failed iterations. *)
Theorem distance_is_sum_of_credits (env : nat -> replies) :
  exists r,
    navigate_robot env = Some r /\
    distance_moved (final r) = accumulate env 0 (step (final r)) 0.
Proof.
  unfold navigate_robot.
  destruct (while_loop_total max_steps env initial_nav_state initial_fuel) as [r Hr].
  rewrite Hr. eexists. split; [reflexivity|]. cbn [final].
  rewrite (while_loop_credit _ _ _ _ Hr). cbn [initial_nav_state step distance_moved].
  now rewrite Nat.sub_0_r.
Qed.

Example distance_of_mixed_run :
  option_map (fun r => (step (final r), Qred (distance_moved (final r))))
    (navigate_robot (fun n => if (n <=? 3)%nat then forward_reply
                              else if (n <=? 5)%nat then no_camera
                              else blocked_reply))
  = Some (10%nat, 6).
Proof. vm_compute. reflexivity. Qed.

(** ** The agent against the server *)

(** X15: the server never refuses a command of the decision loop.
    Whatever the response and the count, a chosen movement has speed 1.0
    and a duration of 1.0 or 2.0, [giveMoveCommand] accepts its direction,
    stores it on the bridge, and the reply the agent decodes is an
    acknowledged move whose [duration_s] is the requested duration. *)
Theorem agent_commands_accepted
    (response : pystr) (n : nat) (movement_command : string) (speed duration : Q) (k : nat)
    (now : Q) (bridge : SimBridge) :
  choose_movement response n = Move movement_command speed duration k ->
  speed = 1 /\ (duration = 1 \/ duration = 2) /\
  exists vx vy wz,
    direction_to_command (py movement_command) speed 0.8 = Return (vx, vy, wz) /\
    snd (giveMoveCommand now (py movement_command) duration speed 0.8 bridge)
      = set_base_command now vx vy wz duration bridge /\
    move_reply_of (fst (giveMoveCommand now (py movement_command) duration speed 0.8 bridge))
      = MoveOk (Some duration).
Proof.
  rewrite choose_movement_policy.
  assert (Haccepted : forall m s d c,
            In (m, s, d) [("forward"%string, 1, 2); ("forward"%string, 1, 1);
                          ("left"%string, 1, 1); ("right"%string, 1, 1);
                          ("turn_left"%string, 1, 1); ("turn_right"%string, 1, 1)] ->
            Move m s d c = Move movement_command speed duration k ->
            speed = 1 /\ (duration = 1 \/ duration = 2) /\
            exists vx vy wz,
              direction_to_command (py movement_command) speed 0.8 = Return (vx, vy, wz) /\
              snd (giveMoveCommand now (py movement_command) duration speed 0.8 bridge)
                = set_base_command now vx vy wz duration bridge /\
              move_reply_of
                (fst (giveMoveCommand now (py movement_command) duration speed 0.8 bridge))
                = MoveOk (Some duration)).
  { intros m s d c Hin [= <- <- <- <-]. cbn in Hin.
    repeat (destruct Hin as [[= <- <- <-]|Hin];
            [split; [reflexivity|]; split; [auto|]; do 3 eexists; repeat split|]).
    destruct Hin. }
  destruct (decision_of response); cbn [policy];
    try (apply Haccepted; cbn; tauto).
  destruct (S n <=? 2)%nat; [|destruct (S n <=? 4)%nat; [|discriminate]];
    apply Haccepted; cbn; tauto.
Qed.

(** X16: while the bridge holds no camera frame, [getCameraImage] and
    [queryVisionModel] both answer "No camera frame available", whatever
    the encoder and the vision service would do, the [/camera] route
    answers 503, and an iteration of the agent that gets this camera
    answer fails: it issues no command. *)
Theorem no_frame_no_motion
    (encode : frame -> outcome png_image) (post : string -> string -> string -> post_reply)
    (http_encode : frame -> http_image)
    (prompt model : string) (bridge : SimBridge) :
  get_camera_rgba bridge = None ->
  getCameraImage_tool encode bridge = CameraPayloadError no_frame_msg /\
  queryVisionModel_tool encode post prompt model bridge = VisionPayloadError no_frame_msg /\
  handle_camera http_encode bridge = {| status := 503; body := BodyError no_frame_msg |} /\
  forall v m st,
    let r := {| camera := camera_reply_of (getCameraImage_tool encode bridge);
                vision := v; move := m |} in
    iteration_fails r = true /\ primitives (snd (loop_body r st)) = [].
Proof.
  intros Hnone.
  unfold getCameraImage_tool, queryVisionModel_tool, handle_camera. rewrite Hnone.
  repeat split.
Qed.

(** X17: the text the vision tool hands on is trimmed, and it is handed on
    only for status 200.  When the model answers with white space only,
    no-break spaces and the like included, the agent receives an empty
    response, so the iteration fails and the robot is given no command,
    where any other unrecognised text would have made it step forward. *)
Theorem vision_answer_is_trimmed
    (encode : frame -> outcome png_image) (post : string -> string -> string -> post_reply)
    (prompt model : string) (bridge : SimBridge) :
  (forall response m,
     queryVisionModel_tool encode post prompt model bridge = VisionPayloadOk response m ->
     strip response = response /\ m = model /\
     exists rgba image text json_response,
       get_camera_rgba bridge = Some rgba /\ encode rgba = Gives image /\
       post model prompt (image_base64 image) = PostResponds 200 text json_response) /\
  (forall rgba image text answer,
     get_camera_rgba bridge = Some rgba -> encode rgba = Gives image ->
     post model prompt (image_base64 image) = PostResponds 200 text (Gives (Some answer)) ->
     all_space answer = true ->
     queryVisionModel_tool encode post prompt model bridge = VisionPayloadOk (py "") model /\
     forall m st,
       let r := {| camera := CameraOk;
                   vision := vision_reply_of
                               (queryVisionModel_tool encode post prompt model bridge);
                   move := m |} in
       iteration_fails r = true /\ primitives (snd (loop_body r st)) = []) /\
  all_space [160%N; 8239%N; 12288%N] = true.
Proof.
  split; [|split; [|reflexivity]].
  - intros response m. unfold queryVisionModel_tool.
    destruct (get_camera_rgba bridge) as [rgba|]; [|discriminate].
    destruct (encode rgba) as [msg|image] eqn:He; [discriminate|].
    destruct (post model prompt (image_base64 image))
      as [msg|status_code text json_response] eqn:Hp; [discriminate|].
    destruct (Nat.eqb_spec status_code 200) as [->|Hs]; [|discriminate].
    destruct json_response as [msg|[answer|]]; [discriminate| |];
      intros [= <- <-]; (split; [apply strip_idem|]); (split; [reflexivity|]);
      exists rgba, image, text; eexists; repeat split; eassumption.
  - intros rgba image text answer Hr He Hp Hspace.
    assert (Hq : queryVisionModel_tool encode post prompt model bridge
                 = VisionPayloadOk (py "") model).
    { unfold queryVisionModel_tool. rewrite Hr, He, Hp. cbn [Nat.eqb].
      now rewrite (strip_all_space answer Hspace). }
    split; [exact Hq|]. intros m st. rewrite Hq. cbn. split; reflexivity.
Qed.

End Unicode.

(** * The properties on examples

    The examples run with a table that holds the mappings of the long s
    (U+017F), the sharp s (U+00DF), the dotless i (U+0131) and the Kelvin
    sign (U+212A). *)


Lemma giveMoveCommand_reports_requested_length_witness :
  direction_to_command example_unicode (py "forward") 1 0.8 = Return (1, 0, 0) /\
  exists r,
    fst (giveMoveCommand example_unicode 10 (py "forward") (-3) 1 0.8 (fst (new_bridge ∅)))
      = Return r /\
    ok r = true /\
    applied_duration_s (applied r) = -3 /\
    (applied_vx (applied r), applied_vy (applied r), applied_yaw_rate (applied r)) = (1, 0, 0) /\
    _base_command
      (snd (giveMoveCommand example_unicode 10 (py "forward") (-3) 1 0.8 (fst (new_bridge ∅))))
      = (1, 0, 0) /\
    _command_until_walltime
      (snd (giveMoveCommand example_unicode 10 (py "forward") (-3) 1 0.8 (fst (new_bridge ∅))))
      = 10 + max0 (-3) /\
    (-3 < 0 ->
       applied_duration_s (applied r) < 0 /\
       _command_until_walltime
         (snd (giveMoveCommand example_unicode 10 (py "forward") (-3) 1 0.8
                 (fst (new_bridge ∅))))
       == 10).
Proof.
  split; [reflexivity|].
  apply (giveMoveCommand_reports_requested_length example_unicode
           10 (py "forward") (-3) 1 0.8 (fst (new_bridge ∅)) (1, 0, 0)).
  reflexivity.
Defined.


(** Outside ASCII the translator is not insensitive to case: the long s
    is a small letter whose capital is S, "ſtop" is refused and its
    uppercase form "STOP" is accepted; the Kelvin sign is a capital whose
    small letter is k. *)
Example direction_to_command_long_s :
  str_upper example_unicode ([383%N] ++ py "top") = py "STOP" /\
  direction_to_command example_unicode ([383%N] ++ py "top") 1 0.8
    = Raise (ValueError unknown_direction_msg) /\
  direction_to_command example_unicode (py "STOP") 1 0.8 = Return (0, 0, 0) /\
  str_lower example_unicode [8490%N] = py "k".
Proof. repeat split. Qed.


(** Words outside ASCII whose capitals are ASCII count as well: a first
    line "BLOCKED, ſlow" is decided SLOW, which comes before BLOCKED, and
    "obſtacle_left" is OBSTACLE_LEFT. *)
Example decision_long_s :
  decision_of example_unicode (py "BLOCKED, " ++ [383%N] ++ py "low") = SLOW /\
  decision_of example_unicode (py "ob" ++ [383%N] ++ py "tacle_left: box") = OBSTACLE_LEFT.
Proof. split; reflexivity. Qed.

(** C5 as stated fails on the exit at [max_steps]: when every iteration
    decides FORWARD the run ends after 100 steps with a forward command as
    its last primitive and no [stop] call; one second after that command
    (the closing sleep of the iteration) the bridge still returns the
    forward velocity. *)
Lemma navigate_robot_max_steps_without_stop :
  option_map reason (navigate_robot example_unicode (fun _ => forward_reply))
    = Some MaxStepsReached /\
  option_map (fun r => step (final r)) (navigate_robot example_unicode (fun _ => forward_reply))
    = Some 100%nat /\
  option_map (fun r => existsb is_stop_call (events r))
    (navigate_robot example_unicode (fun _ => forward_reply))
    = Some false /\
  option_map (fun r => last (primitives (events r)))
    (navigate_robot example_unicode (fun _ => forward_reply))
    = Some (Some "forward"%string) /\
  fst (get_base_command (50 + 1)
         (snd (giveMoveCommand example_unicode 50 (py "forward") 2 1 0.8 (fst (new_bridge ∅)))))
    = (1, 0, 0).
Proof. vm_compute. repeat split. Qed.

Lemma failed_iteration_consumes_step_witness :
  iteration_fails no_camera = true /\
  fst (fst (loop_body example_unicode no_camera (mkNav 41 3 1))) = Continue /\
  step (snd (fst (loop_body example_unicode no_camera (mkNav 41 3 1)))) = 42%nat /\
  distance_moved (snd (fst (loop_body example_unicode no_camera (mkNav 41 3 1)))) = 3 /\
  consecutive_stops (snd (fst (loop_body example_unicode no_camera (mkNav 41 3 1)))) = 1%nat /\
  last (snd (loop_body example_unicode no_camera (mkNav 41 3 1))) = Some (Sleep 1) /\
  primitives (snd (loop_body example_unicode no_camera (mkNav 41 3 1))) = [].
Proof.
  split; [reflexivity|].
  apply (proj1 (failed_iteration_consumes_step example_unicode) no_camera (mkNav 41 3 1)).
  reflexivity.
Defined.

(** C4 as stated fails: one iteration without a camera frame takes the step
    counter from 0 to 1, and a run in which the camera never has a frame
    ends at step 100 without a single decision. *)
Lemma failed_iterations_use_up_steps :
  iteration_fails no_camera = true /\
  step (snd (fst (loop_body example_unicode no_camera initial_nav_state))) = 1%nat /\
  option_map reason (navigate_robot example_unicode (fun _ => no_camera))
    = Some MaxStepsReached /\
  option_map (fun r => step (final r)) (navigate_robot example_unicode (fun _ => no_camera))
    = Some 100%nat /\
  option_map (fun r => iterations (events r))
    (navigate_robot example_unicode (fun _ => no_camera))
    = Some 100%nat /\
  option_map (fun r => existsb is_command_call (events r))
    (navigate_robot example_unicode (fun _ => no_camera))
    = Some false.
Proof. vm_compute. repeat split. Qed.

Lemma direction_single_axis_witness :
  direction_to_command example_unicode (py "strafe_left") 1 0.8 = Return (0, 1, 0) /\
  ((1 = 0 /\ 0 = 0 /\ (0 = 1 \/ 0 = - 1 \/ 0 = 0)) \/
   (0 = 0 /\ 0 = 0 /\ (1 = 1 \/ 1 = - 1)) \/
   (0 = 0 /\ 1 = 0 /\ (0 = 0.8 \/ 0 = - 0.8))).
Proof.
  split; [reflexivity|].
  apply (direction_single_axis example_unicode (py "strafe_left") 1 0.8 0 1 0). reflexivity.
Defined.

Lemma blank_direction_refused_witness :
  all_space ([160%N] ++ py "  ") = true /\
  direction_to_command example_unicode ([160%N] ++ py "  ") 1 0.8
    = Raise (ValueError unknown_direction_msg).
Proof.
  split; [reflexivity|].
  apply (blank_direction_refused example_unicode ([160%N] ++ py "  ") 1 0.8). reflexivity.
Defined.

Lemma applied_vector_is_delivered_witness :
  fst (giveMoveCommand example_unicode 10 (py "left") 1 1 0.8 (fst (new_bridge ∅)))
    = Return {| ok := true;
                applied := {| applied_vx := 0; applied_vy := 1; applied_yaw_rate := 0;
                              applied_duration_s := 1 |} |} /\
  _base_command (snd (giveMoveCommand example_unicode 10 (py "left") 1 1 0.8
                        (fst (new_bridge ∅)))) = (0, 1, 0) /\
  10 <= _command_until_walltime
          (snd (giveMoveCommand example_unicode 10 (py "left") 1 1 0.8 (fst (new_bridge ∅)))) /\
  (10.5 <= _command_until_walltime
             (snd (giveMoveCommand example_unicode 10 (py "left") 1 1 0.8
                     (fst (new_bridge ∅)))) ->
     fst (get_base_command 10.5
            (snd (giveMoveCommand example_unicode 10 (py "left") 1 1 0.8 (fst (new_bridge ∅)))))
     = (0, 1, 0)) /\
  (_command_until_walltime
     (snd (giveMoveCommand example_unicode 10 (py "left") 1 1 0.8 (fst (new_bridge ∅))))
   < 10.5 ->
     fst (get_base_command 10.5
            (snd (giveMoveCommand example_unicode 10 (py "left") 1 1 0.8 (fst (new_bridge ∅)))))
     = (0, 0, 0)).
Proof.
  split; [reflexivity|].
  apply (applied_vector_is_delivered example_unicode 10 (py "left") 1 1 0.8 (fst (new_bridge ∅))
           {| ok := true;
              applied := {| applied_vx := 0; applied_vy := 1; applied_yaw_rate := 0;
                            applied_duration_s := 1 |} |} 10.5).
  reflexivity.
Defined.

Lemma move_route_is_giveMoveCommand_witness :
  example_float (query_param example_query "length" (py "0.2")) = Return 2 /\
  example_float (query_param example_query "speed" (py "1.0")) = Return 1 /\
  example_float (query_param example_query "yaw_rate" (py "0.8")) = Return 0.8 /\
  do_GET example_unicode example_float example_encode 10 "/move" example_query
    (fst (new_bridge ∅)) ∅ =
  Some
    match giveMoveCommand example_unicode 10 (query_param example_query "direction" (py "")) 2 1
            0.8 (fst (new_bridge ∅)) with
    | (Return r, bridge') => ({| status := 200; body := BodyApplied (applied r) |}, bridge', ∅)
    | (Raise (ValueError msg), bridge') => ({| status := 400; body := BodyError msg |}, bridge', ∅)
    end.
Proof.
  split; [reflexivity|]. split; [reflexivity|]. split; [reflexivity|].
  apply (move_route_is_giveMoveCommand example_unicode example_float example_encode 10
           example_query (fst (new_bridge ∅)) ∅ 2 1 0.8); reflexivity.
Defined.

Lemma do_GET_effects_witness :
  do_GET example_unicode example_float example_encode 10 "/favicon.ico" example_query
    (fst (new_bridge ∅)) ∅
    = Some ({| status := 404; body := BodyEmpty |}, fst (new_bridge ∅), ∅) /\
  In 404%nat [200; 400; 404; 500; 503]%nat.
Proof.
  split; [reflexivity|].
  apply (do_GET_effects example_unicode example_float example_encode 10 "/favicon.ico"
           example_query (fst (new_bridge ∅)) ∅ {| status := 404; body := BodyEmpty |}
           (fst (new_bridge ∅)) ∅).
  reflexivity.
Defined.

Lemma agent_commands_accepted_witness :
  choose_movement example_unicode (py "OBSTACLE_LEFT: box ahead") 2 = Move "left" 1 1 0 /\
  1 = 1 /\ (1 = 1 \/ 1 = 2) /\
  exists vx vy wz,
    direction_to_command example_unicode (py "left") 1 0.8 = Return (vx, vy, wz) /\
    snd (giveMoveCommand example_unicode 10 (py "left") 1 1 0.8 (fst (new_bridge ∅)))
      = set_base_command 10 vx vy wz 1 (fst (new_bridge ∅)) /\
    move_reply_of
      (fst (giveMoveCommand example_unicode 10 (py "left") 1 1 0.8 (fst (new_bridge ∅))))
      = MoveOk (Some 1).
Proof.
  split; [reflexivity|].
  apply (agent_commands_accepted example_unicode (py "OBSTACLE_LEFT: box ahead") 2 "left" 1 1 0
           10 (fst (new_bridge ∅))).
  reflexivity.
Defined.

Lemma no_frame_no_motion_witness :
  get_camera_rgba (fst (new_bridge ∅)) = None /\
  getCameraImage_tool (fun _ => Fails "unused") (fst (new_bridge ∅))
    = CameraPayloadError no_frame_msg.
Proof.
  split; [reflexivity|].
  apply (no_frame_no_motion example_unicode (fun _ => Fails "unused")
           (fun _ _ _ => PostRaises "unused") example_encode "" "" (fst (new_bridge ∅))).
  reflexivity.
Defined.

(** * The state snapshot *)

(** ** Threads on the snapshot

    The invariant of the interleaving model of [update_state] and
    [get_state]. *)

Import ConcurrentState.

Lemma snapshot_in_force_snoc d0 ps d : snapshot_in_force d0 (ps ++ [d]) = d.
Proof. unfold snapshot_in_force. now rewrite last_snoc. Qed.

Lemma is_internal_false x m : is_internal x m = false -> ~ In x (internal m).
Proof.
  unfold is_internal. intros H Hin.
  assert (existsb (Nat.eqb x) (internal m) = true); [|congruence].
  apply existsb_exists. exists x. split; [exact Hin | apply Nat.eqb_refl].
Qed.

Lemma dict_copy_inv x (h : heap) a h' :
  dict_copy x h = Some (a, h') ->
  exists d, h !! x = Some d /\ h !! a = None /\ h' = <[a := d]> h.
Proof.
  unfold dict_copy. destruct (h !! x) as [d|]; [|discriminate].
  intros [= <- <-]. exists d. split; [reflexivity|].
  split; [apply (alloc_fresh d h) | reflexivity].
Qed.

(** What a step leaves of the memory that the other threads rely on: the
    dicts of the bridge stay the bridge's and keep their items, the other
    dicts stay alive and outside, and publications are only added. *)
Record snapshot_frame (m m' : shared) (ws : list pydict) : Prop := mkFrame {
  frame_internal : forall a, In a (internal m) -> In a (internal m');
  frame_items : forall a d, In a (internal m) -> objects m !! a = Some d ->
                  objects m' !! a = Some d;
  frame_outside : forall a, is_Some (objects m !! a) -> ~ In a (internal m) ->
                    ~ In a (internal m') /\ is_Some (objects m' !! a);
  frame_snapshots : snapshots m' = snapshots m ++ ws
}.

Lemma snapshot_thread_frame d0 p m m' ws :
  snapshot_frame m m' ws ->
  (holds_lock p = true -> ws = []) ->
  thread_ok d0 p m -> thread_ok d0 p m'.
Proof.
  intros [Hint Hitems Hout Hpub] Hws. destruct p; cbn; try tauto.
  - intros [Ha Hd]. split; [now apply Hint | now apply Hitems].
  - intros (Hn & Hi & Hno & Hsome). rewrite Hpub, (Hws eq_refl), app_nil_r.
    destruct (Hout _ Hsome Hno). tauto.
  - intros (Hn & Hi & Hno & Hsome). rewrite Hpub.
    destruct (Hout _ Hsome Hno) as [Hno' Hsome'].
    split; [rewrite length_app; lia|]. split; [now rewrite take_app_le|]. tauto.
Qed.

Lemma snapshot_frame_same m m' :
  objects m' = objects m -> internal m' = internal m -> snapshots m' = snapshots m ->
  snapshot_frame m m' [].
Proof.
  intros Ho Hi Hp. split; rewrite ?Ho, ?Hi, ?Hp, ?app_nil_r; auto.
Qed.

Lemma snapshot_frame_alloc m m' a d :
  (forall b, In b (internal m) -> is_Some (objects m !! b)) ->
  objects m !! a = None ->
  objects m' = <[a := d]> (objects m) ->
  (internal m' = internal m \/ internal m' = a :: internal m) ->
  snapshots m' = snapshots m ->
  snapshot_frame m m' [].
Proof.
  intros Halive Hfresh Ho Hi Hp.
  assert (Hne : forall b, is_Some (objects m !! b) -> b <> a).
  { intros b [x Hx] ->. congruence. }
  split; rewrite ?Ho, ?Hp, ?app_nil_r; auto.
  - intros b Hb. destruct Hi as [-> | ->]; [exact Hb | now right].
  - intros b x Hb Hx. rewrite lookup_insert_ne; [exact Hx|].
    intros ->. congruence.
  - intros b Hsome Hno. split.
    + destruct Hi as [-> | ->]; [exact Hno|].
      intros [E|Hin]; [|contradiction]. now apply (Hne b Hsome).
    + rewrite lookup_insert_ne; [exact Hsome|]. intros E. now apply (Hne b Hsome).
Qed.

Lemma snapshot_frame_alter m m' x (f : pydict -> pydict) :
  ~ In x (internal m) ->
  objects m' = alter f x (objects m) ->
  internal m' = internal m -> snapshots m' = snapshots m ->
  snapshot_frame m m' [].
Proof.
  intros Hx Ho Hi Hp. split; rewrite ?Ho, ?Hi, ?Hp, ?app_nil_r; auto.
  - intros a d Ha Hd. rewrite lookup_alter_ne; [exact Hd|]. intros ->. contradiction.
  - intros a Hsome Hno. split; [exact Hno|].
    destruct (decide (x = a)) as [->|Hne].
    + rewrite lookup_alter_eq. destruct Hsome as [y ->]. now eexists.
    + now rewrite lookup_alter_ne.
Qed.

Lemma snapshot_invariant_init self h d calls :
  h !! _last_state self = Some d -> invariant d (init self h calls).
Proof.
  intros Hd. split; cbn.
  - exact Hd.
  - now left.
  - intros a [<-|[]]. now rewrite Hd.
  - intros i p Hp. rewrite list_lookup_fmap in Hp.
    destruct (calls !! i) as [[]|]; [| |discriminate]; injection Hp as <-; exact I.
  - intros i p Hp. rewrite list_lookup_fmap in Hp.
    destruct (calls !! i) as [[]|]; [| |discriminate]; injection Hp as <-; discriminate.
Qed.

(** The frame of one step of thread [i]. *)
Lemma snapshot_step d0 s i p p' m' ws :
  invariant d0 s ->
  sthreads s !! i = Some p ->
  snapshot_frame (smem s) m' ws ->
  (holds_lock p = false -> ws = []) ->
  (slock m' = slock (smem s) \/ slock (smem s) = None \/ holds_lock p = true) ->
  (holds_lock p' = true -> slock m' = Some i) ->
  objects m' !! _last_state (sbridge m') = Some (snapshot_in_force d0 (snapshots m')) ->
  In (_last_state (sbridge m')) (internal m') ->
  (forall a, In a (internal m') -> is_Some (objects m' !! a)) ->
  thread_ok d0 p' m' ->
  invariant d0 {| sthreads := <[i := p']> (sthreads s); smem := m' |}.
Proof.
  intros [Hstored Howned Halive Hthreads Hmutex] Hp Hframe Hws Hlock Hmutex'
    Hstored' Howned' Halive' Hok'.
  assert (Hi : (i < length (sthreads s))%nat) by (eapply lookup_lt_Some; eauto).
  split; cbn; [exact Hstored' | exact Howned' | exact Halive' | |].
  - intros j q Hq. destruct (decide (i = j)) as [<-|Hne].
    + rewrite list_lookup_insert_eq in Hq by exact Hi. now injection Hq as <-.
    + rewrite list_lookup_insert_ne in Hq by exact Hne.
      apply (snapshot_thread_frame d0 q (smem s) m' ws Hframe); [|exact (Hthreads j q Hq)].
      intros Hq'. destruct (holds_lock p) eqn:Hcrit; [|now apply Hws].
      pose proof (Hmutex i p Hp Hcrit) as H1. pose proof (Hmutex j q Hq Hq') as H2.
      congruence.
  - intros j q Hq Hq'. destruct (decide (i = j)) as [<-|Hne].
    + rewrite list_lookup_insert_eq in Hq by exact Hi. injection Hq as <-. auto.
    + rewrite list_lookup_insert_ne in Hq by exact Hne.
      pose proof (Hmutex j q Hq Hq') as H2.
      destruct Hlock as [-> | [Hnone | Hcrit]]; [exact H2 | congruence |].
      pose proof (Hmutex i p Hp Hcrit) as H1. congruence.
Qed.

Lemma snapshot_invariant_exec d0 s i p p' m' :
  invariant d0 s ->
  sthreads s !! i = Some p ->
  exec i p (smem s) = Some (p', m') ->
  invariant d0 {| sthreads := <[i := p']> (sthreads s); smem := m' |}.
Proof.
  intros Hinv Hp He.
  pose proof (inv_stored _ _ Hinv) as Hstored.
  pose proof (inv_owned _ _ Hinv) as Howned.
  pose proof (inv_alive _ _ Hinv) as Halive.
  pose proof (inv_threads _ _ Hinv i p Hp) as Hok.
  pose proof (inv_mutex _ _ Hinv i p Hp) as Hmine.
  destruct p; cbn in He, Hok, Hmine.
  - (* UStart *)
    destruct (slock (smem s)) eqn:Hl; [discriminate|]. injection He as <- <-.
    apply (snapshot_step d0 s i _ _ _ [] Hinv Hp); cbn; auto.
    now apply snapshot_frame_same.
  - (* UCopy *)
    destruct (dict_copy _ (objects (smem s))) as [[a h']|] eqn:Hcopy; [|discriminate].
    destruct (dict_copy_inv _ _ _ _ Hcopy) as (ds & Hds & Hfresh & ->).
    rewrite lookup_insert_eq in He. injection He as <- <-.
    assert (Hne : forall b, is_Some (objects (smem s) !! b) -> a <> b).
    { intros b [x Hx] ->. congruence. }
    apply (snapshot_step d0 s i _ _ _ [] Hinv Hp); cbn; auto.
    + apply (snapshot_frame_alloc _ _ a ds); cbn; auto.
    + rewrite lookup_insert_ne; [exact Hstored|]. apply Hne. now rewrite Hstored.
    + intros b [<-|Hb]; [now rewrite lookup_insert_eq|].
      rewrite lookup_insert_ne; [now apply Halive|]. now apply Hne, Halive.
    + split; [now left | apply lookup_insert_eq].
  - (* UAssign *)
    injection He as <- <-. destruct Hok as [Ha Hitems].
    apply (snapshot_step d0 s i _ _ _ [items] Hinv Hp); cbn; auto.
    + split; cbn; auto.
    + discriminate.
    + now rewrite snapshot_in_force_snoc.
  - (* URelease *)
    injection He as <- <-.
    apply (snapshot_step d0 s i _ _ _ [] Hinv Hp); cbn; auto.
    + now apply snapshot_frame_same.
    + discriminate.
  - (* UDone *) discriminate.
  - (* GStart *)
    destruct (slock (smem s)) eqn:Hl; [discriminate|]. injection He as <- <-.
    apply (snapshot_step d0 s i _ _ _ [] Hinv Hp); cbn; auto.
    now apply snapshot_frame_same.
  - (* GCopy *)
    destruct (dict_copy _ (objects (smem s))) as [[a h']|] eqn:Hcopy; [|discriminate].
    destruct (dict_copy_inv _ _ _ _ Hcopy) as (ds & Hds & Hfresh & ->).
    rewrite lookup_insert_eq in He. injection He as <- <-.
    assert (Hne : forall b, is_Some (objects (smem s) !! b) -> a <> b).
    { intros b [x Hx] ->. congruence. }
    apply (snapshot_step d0 s i _ _ _ [] Hinv Hp); cbn; auto.
    + apply (snapshot_frame_alloc _ _ a ds); cbn; auto.
    + rewrite lookup_insert_ne; [exact Hstored|]. apply Hne. now rewrite Hstored.
    + intros b Hb. rewrite lookup_insert_ne; [now apply Halive|]. now apply Hne, Halive.
    + split; [reflexivity|]. split; [congruence|].
      split; [|now rewrite lookup_insert_eq].
      intros Hin. now apply (Hne a (Halive a Hin)).
  - (* GRelease *)
    injection He as <- <-. destruct Hok as (Hn & Hitems & Hno & Hsome).
    apply (snapshot_step d0 s i _ _ _ [] Hinv Hp); cbn; auto.
    + now apply snapshot_frame_same.
    + discriminate.
    + split; [lia|]. rewrite Hn, firstn_all. tauto.
  - (* GDone *) discriminate.
Qed.

(** Code outside the bridge that writes into a dict it holds. *)
Lemma snapshot_invariant_alter d0 s x (f : pydict -> pydict) :
  invariant d0 s ->
  ~ In x (internal (smem s)) ->
  invariant d0 {| sthreads := sthreads s;
                  smem := with_objects (alter f x (objects (smem s))) (smem s) |}.
Proof.
  intros [Hstored Howned Halive Hthreads Hmutex] Hx.
  assert (Hframe : snapshot_frame (smem s)
                     (with_objects (alter f x (objects (smem s))) (smem s)) []).
  { now apply (snapshot_frame_alter _ _ x f). }
  split; cbn.
  - rewrite lookup_alter_ne; [exact Hstored|]. intros ->. contradiction.
  - exact Howned.
  - intros a Ha. rewrite lookup_alter_ne; [now apply Halive|]. intros ->. contradiction.
  - intros i p Hp.
    apply (snapshot_thread_frame d0 p (smem s) _ [] Hframe); [reflexivity | exact (Hthreads i p Hp)].
  - exact Hmutex.
Qed.

Lemma snapshot_invariant_do_action d0 s a :
  invariant d0 s -> invariant d0 (do_action s a).
Proof.
  intros Hinv. destruct a as [i|x k v|x k]; cbn.
  - destruct (sthreads s !! i) as [p|] eqn:Hp; [|exact Hinv].
    destruct (exec i p (smem s)) as [[p' m']|] eqn:He; [|exact Hinv].
    now apply (snapshot_invariant_exec d0 s i p).
  - destruct (is_internal x (smem s)) eqn:Hx; [exact Hinv|].
    apply snapshot_invariant_alter; [exact Hinv | now apply is_internal_false].
  - destruct (is_internal x (smem s)) eqn:Hx; [exact Hinv|].
    apply snapshot_invariant_alter; [exact Hinv | now apply is_internal_false].
Qed.

Lemma snapshot_invariant_run_schedule d0 sched : forall s,
  invariant d0 s -> invariant d0 (run_schedule sched s).
Proof.
  induction sched as [|a sched IH]; intros s Hinv; [exact Hinv|].
  cbn. apply IH. now apply snapshot_invariant_do_action.
Qed.

(** The two copies are whole: the dict an update builds holds the items
    of the dict it was handed, and the dict a read returns those of the
    stored snapshot, at the moment of the copy. *)
Lemma exec_copies i m :
  (forall state a items m',
     exec i (UCopy state) m = Some (UAssign a items, m') ->
     objects m !! state = Some items /\ objects m !! a = None /\
     objects m' !! a = Some items) /\
  (forall n a items m',
     exec i GCopy m = Some (GRelease n a items, m') ->
     objects m !! _last_state (sbridge m) = Some items /\ objects m !! a = None /\
     objects m' !! a = Some items /\ sbridge m' = sbridge m).
Proof.
  split.
  - intros state a items m'. cbn.
    destruct (dict_copy state (objects m)) as [[a' h']|] eqn:Hcopy; [|discriminate].
    destruct (dict_copy_inv _ _ _ _ Hcopy) as (ds & Hds & Hfresh & ->).
    rewrite lookup_insert_eq. intros [= <- <- <-]. cbn.
    now rewrite lookup_insert_eq.
  - intros n a items m'. cbn.
    destruct (dict_copy _ (objects m)) as [[a' h']|] eqn:Hcopy; [|discriminate].
    destruct (dict_copy_inv _ _ _ _ Hcopy) as (ds & Hds & Hfresh & ->).
    rewrite lookup_insert_eq. intros [= <- <- <- <-]. cbn.
    now rewrite lookup_insert_eq.
Qed.

(** C6, as the code has it: [get_state] returns a new dict object with the
    items of the stored snapshot, values and references as they are.  The
    stored dict object is a different object and no store into or deletion
    from the returned dict changes it, or what a later [get_state] returns;
    the nested dicts are reached through the same references from both.
    [update_state] stores such a copy of the dict it is given, so a later
    store into that dict by the publisher does not reach the bridge
    either.  With any number of [update_state] and [get_state] calls run
    as threads under any schedule, while the code outside writes into the
    dicts it holds, the stored dict is at every moment the initial one or
    the last one published, whole; a reader gets the items of the
    snapshot that was in force while it was inside the lock, in a dict of
    its own; and at most one thread is inside the lock. *)
Theorem get_state_shallow_copy (self : SimBridge) (h : heap) (d : pydict) :
  h !! _last_state self = Some d ->
  (exists s h',
     get_state self h = Some (s, h') /\
     s <> _last_state self /\ h !! s = None /\
     h' !! s = Some d /\
     (forall a, a <> s -> h' !! a = h !! a) /\
     (forall k v, setitem s k v h' !! _last_state self = Some d) /\
     (forall k, delitem s k h' !! _last_state self = Some d) /\
     (forall k v, exists s2 h2,
        get_state self (setitem s k v h') = Some (s2, h2) /\ h2 !! s2 = Some d) /\
     (forall k, getitem h' s k = getitem h (_last_state self) k)) /\
  (forall state ds,
     h !! state = Some ds ->
     exists self' h',
       update_state state self h = Some (self', h') /\
       _last_state self' <> state /\
       h' !! _last_state self' = Some ds /\
       _base_command self' = _base_command self /\
       _command_until_walltime self' = _command_until_walltime self /\
       forall k v, exists s2 h2,
         get_state self' (setitem state k v h') = Some (s2, h2) /\ h2 !! s2 = Some ds) /\
  (forall calls sched,
     let s := run_schedule sched (init self h calls) in
     objects (smem s) !! _last_state (sbridge (smem s))
       = Some (snapshot_in_force d (snapshots (smem s))) /\
     (forall i n copy items,
        sthreads s !! i = Some (GRelease n copy items) ->
        n = length (snapshots (smem s)) /\
        items = snapshot_in_force d (snapshots (smem s)) /\
        copy <> _last_state (sbridge (smem s))) /\
     (forall i n copy items,
        sthreads s !! i = Some (GDone n copy items) ->
        (n <= length (snapshots (smem s)))%nat /\
        items = snapshot_in_force d (take n (snapshots (smem s))) /\
        copy <> _last_state (sbridge (smem s)) /\
        is_Some (objects (smem s) !! copy)) /\
     (forall i state m a items m',
        exec i (UCopy state) m = Some (UAssign a items, m') ->
        objects m !! state = Some items /\ objects m !! a = None /\
        objects m' !! a = Some items) /\
     (forall i m n a items m',
        exec i GCopy m = Some (GRelease n a items, m') ->
        objects m !! _last_state (sbridge m) = Some items /\ objects m !! a = None /\
        objects m' !! a = Some items /\ sbridge m' = sbridge m) /\
     (forall i j p q,
        sthreads s !! i = Some p -> sthreads s !! j = Some q ->
        holds_lock p = true -> holds_lock q = true -> i = j)).
Proof.
  intros Hd. split; [|split].
  - unfold get_state.
    destruct (dict_copy_spec _ h d Hd) as (s & h' & Hcopy & Hne & Hfresh & Hs & Hother).
    exists s, h'. split; [exact Hcopy|]. split; [exact Hne|]. split; [exact Hfresh|].
    split; [exact Hs|]. split; [exact Hother|].
    assert (Hstored : h' !! _last_state self = Some d).
    { rewrite Hother by congruence. exact Hd. }
    split; [intros k v; rewrite setitem_other by congruence; exact Hstored|].
    split; [intros k; rewrite delitem_other by congruence; exact Hstored|].
    split.
    + intros k v.
      assert (Hd' : setitem s k v h' !! _last_state self = Some d).
      { rewrite setitem_other by congruence. exact Hstored. }
      destruct (dict_copy_spec _ _ d Hd') as (s2 & h2 & Hcopy2 & _ & _ & Hs2 & _).
      now exists s2, h2.
    + intros k. unfold getitem. now rewrite Hs, Hd.
  - intros state ds Hds. unfold update_state.
    destruct (dict_copy_spec _ h ds Hds) as (a & h' & Hcopy & Hne & Hfresh & Ha & Hother).
    rewrite Hcopy. do 2 eexists. split; [reflexivity|]. cbn.
    split; [exact Hne|]. split; [exact Ha|]. split; [reflexivity|]. split; [reflexivity|].
    intros k v. unfold get_state. cbn.
    assert (Ha' : setitem state k v h' !! a = Some ds).
    { rewrite setitem_other by exact Hne. exact Ha. }
    destruct (dict_copy_spec _ _ ds Ha') as (s2 & h2 & Hcopy2 & _ & _ & Hs2 & _).
    now exists s2, h2.
  - intros calls sched s.
    pose proof (snapshot_invariant_run_schedule d sched _
                  (snapshot_invariant_init self h d calls Hd)) as Hinv.
    fold s in Hinv. destruct Hinv as [Hstored Howned Halive Hthreads Hmutex].
    split; [exact Hstored|].
    split.
    { intros i n copy items Hp. destruct (Hthreads i _ Hp) as (Hn & Hitems & Hno & _).
      repeat split; try assumption. intros ->. contradiction. }
    split.
    { intros i n copy items Hp. destruct (Hthreads i _ Hp) as (Hn & Hitems & Hno & Hsome).
      repeat split; try assumption. intros ->. contradiction. }
    split; [intros i state m; apply exec_copies|].
    split; [intros i m; apply exec_copies|].
    intros i j p q Hp Hq Hcp Hcq.
    pose proof (Hmutex i p Hp Hcp) as H1. pose proof (Hmutex j q Hq Hcq) as H2. congruence.
Qed.

Lemma get_state_shallow_copy_witness :
  snd published_world !! _last_state (fst published_world) = Some example_snapshot /\
  (exists s h',
     get_state (fst published_world) (snd published_world) = Some (s, h') /\
     s <> _last_state (fst published_world) /\
     h' !! s = Some example_snapshot /\
     forall k v, setitem s k v h' !! _last_state (fst published_world) = Some example_snapshot) /\
  forall sched,
    let s := run_schedule sched
               (init (fst published_world) (snd published_world) example_calls) in
    objects (smem s) !! _last_state (sbridge (smem s))
    = Some (snapshot_in_force example_snapshot (snapshots (smem s))).
Proof.
  assert (Hd : snd published_world !! _last_state (fst published_world)
               = Some example_snapshot) by (vm_compute; reflexivity).
  split; [exact Hd|].
  destruct (get_state_shallow_copy (fst published_world) (snd published_world)
              example_snapshot Hd)
    as [(s & h' & Hg & Hne & _ & Hs & _ & Hset & _) [_ Hthreads]].
  split; [now exists s, h'|].
  intros sched. apply (Hthreads example_calls sched).
Defined.

Example top_level_store_stays_private :
  (published ≫= stored_yaw) = Some (VFloat 0) /\
  ((published ≫= reader_writes_timestamp) ≫= stored_timestamp) = Some (VFloat 5).
Proof. vm_compute. split; reflexivity. Qed.

(** The threads of the example: the first reader gets the empty initial
    snapshot, the second the published one with the timestamp 5 that the
    publisher handed over, although the publisher has since written 7 into
    its own dict and the first reader 9 into its copy. *)
Example example_snapshot_run :
  let w := new_bridge example_heap in
  let s := run_schedule example_schedule (init (fst w) (snd w) example_calls) in
  sthreads s = [GDone 0 4%nat ∅; UDone; GDone 1 6%nat example_snapshot] /\
  slock (smem s) = None /\
  snapshots (smem s) = [example_snapshot] /\
  getitem (objects (smem s)) (_last_state (sbridge (smem s))) "timestamp" = Some (VFloat 5) /\
  getitem (objects (smem s)) 2%nat "timestamp" = Some (VFloat 7) /\
  getitem (objects (smem s)) 4%nat "timestamp" = Some (VFloat 9) /\
  getitem (objects (smem s)) 6%nat "timestamp" = Some (VFloat 5).
Proof. vm_compute. repeat split. Qed.

(** C6 as stated fails for the nested structures: the reader's copy refers
    to the very pose dict of the stored snapshot, so a yaw written through
    the copy is the yaw the bridge holds and hands to the next reader. *)
Lemma get_state_shares_nested_dicts :
  (published ≫= stored_yaw) = Some (VFloat 0) /\
  ((published ≫= reader_writes_pose) ≫= stored_yaw) = Some (VFloat 9) /\
  ((published ≫= reader_writes_pose) ≫= next_reader_yaw) = Some (VFloat 9).
Proof. vm_compute. repeat split. Qed.

(** * Threads on one bridge *)

Import Concurrent.

(** A writer that runs alone does what [set_base_command] does, and a
    reader what [get_base_command] does. *)
Lemma writer_alone i vx vy yaw_rate duration_s m :
  lock m = None ->
  run_alone 5 i (WStart vx vy yaw_rate duration_s) m =
  (WDone,
   {| lock := None;
      bridge := set_base_command (clock m) vx vy yaw_rate duration_s (bridge m);
      clock := clock m;
      committed := committed m ++ [((vx, vy, yaw_rate), clock m + max0 duration_s)] |}).
Proof.
  intros Hfree. destruct m as [l b t ws]. cbn in Hfree. subst l. reflexivity.
Qed.

Lemma reader_alone i m :
  lock m = None ->
  run_alone 5 i RStart m =
  (RDone (clock m) (length (committed m)) (fst (get_base_command (clock m) (bridge m))), m).
Proof.
  intros Hfree. destruct m as [l b t ws]. cbn in Hfree. subst l.
  cbn. unfold get_base_command.
  destruct (Qgtb t (_command_until_walltime b)); reflexivity.
Qed.

Example example_run :
  let s := run_schedule example_schedule (init (fst (new_bridge ∅)) 0 example_calls) in
  threads s = [WDone; WDone; RDone 10 1 (1, 0, 0)] /\
  lock (mem s) = None /\
  stored (mem s) = ((0, 0, 0.8), 0 + 1) /\
  committed (mem s) = [((1, 0, 0), 10 + 2); ((0, 0, 0.8), 0 + 1)].
Proof. vm_compute. repeat split. Qed.

(** What a thread outside the lock knows does not depend on the fields of
    the bridge, and survives every further commit. *)
Lemma thread_ok_outside b0 c p m m' ws :
  holds_lock p = false ->
  committed m' = committed m ++ ws ->
  thread_ok b0 c p m -> thread_ok b0 c p m'.
Proof.
  intros Hout Hws. destruct p; try discriminate; cbn; try tauto.
  - intros (w & Hw & Hc). exists w. split; [|exact Hc].
    rewrite Hws. apply elem_of_app. now left.
  - rewrite Hws. intros [Hn ->]. split.
    + rewrite length_app. lia.
    + now rewrite take_app_le.
Qed.

Lemma thread_ok_frame b0 c p m m' :
  bridge m' = bridge m -> committed m' = committed m ->
  thread_ok b0 c p m -> thread_ok b0 c p m'.
Proof.
  intros Hb Hws. destruct p; cbn; unfold stored; rewrite ?Hb, ?Hws; tauto.
Qed.

Lemma in_force_snoc b0 ws w : in_force b0 (ws ++ [w]) = w.
Proof. unfold in_force. now rewrite last_snoc. Qed.

Lemma invariant_init b0 t calls : invariant b0 calls (init b0 t calls).
Proof.
  split; cbn.
  - intros i p Hp. rewrite list_lookup_fmap in Hp.
    destruct (calls !! i) as [c|]; [|discriminate].
    injection Hp as <-. exists c. split; [reflexivity|]. now destruct c.
  - intros i p Hp. rewrite list_lookup_fmap in Hp.
    destruct (calls !! i) as [[]|]; [| |discriminate]; injection Hp as <-; discriminate.
  - reflexivity.
  - intros w Hw. inversion Hw.
Qed.

(** The frame of one step of thread [i]: what has to be checked of the
    thread that moves, everything else following from the invariant. *)
Lemma step_invariant b0 calls s i p c p' m' ws :
  invariant b0 calls s ->
  threads s !! i = Some p ->
  calls !! i = Some c ->
  committed m' = committed (mem s) ++ ws ->
  (holds_lock p = false -> bridge m' = bridge (mem s) /\ ws = []) ->
  (lock m' = lock (mem s) \/ lock (mem s) = None \/ holds_lock p = true) ->
  thread_ok b0 c p' m' ->
  (holds_lock p' = true -> lock m' = Some i) ->
  (lock m' = None -> stored m' = in_force b0 (committed m')) ->
  (forall w, w ∈ ws -> write_of c w) ->
  invariant b0 calls {| threads := <[i := p']> (threads s); mem := m' |}.
Proof.
  intros [Hthreads Hmutex Hfree Hcommitted] Hp Hc Hws Hout Hlock Hok' Hmutex' Hfree' Hnew.
  assert (Hi : (i < length (threads s))%nat) by (eapply lookup_lt_Some; eauto).
  split; cbn.
  - intros j q Hq. destruct (decide (i = j)) as [<-|Hne].
    + rewrite list_lookup_insert_eq in Hq by exact Hi. injection Hq as <-. eauto.
    + rewrite list_lookup_insert_ne in Hq by exact Hne.
      destruct (Hthreads j q Hq) as (c' & Hc' & Hok). exists c'. split; [exact Hc'|].
      destruct (holds_lock p) eqn:Hcrit.
      * apply (thread_ok_outside b0 c' q (mem s) m' ws); [|exact Hws|exact Hok].
        destruct (holds_lock q) eqn:Hq'; [|reflexivity].
        pose proof (Hmutex i p Hp Hcrit) as H1. pose proof (Hmutex j q Hq Hq') as H2.
        congruence.
      * destruct (Hout eq_refl) as [Hb ->]. rewrite app_nil_r in Hws.
        now apply (thread_ok_frame b0 c' q (mem s) m').
  - intros j q Hq Hq'. destruct (decide (i = j)) as [<-|Hne].
    + rewrite list_lookup_insert_eq in Hq by exact Hi. injection Hq as <-. auto.
    + rewrite list_lookup_insert_ne in Hq by exact Hne.
      pose proof (Hmutex j q Hq Hq') as H2.
      destruct Hlock as [-> | [Hnone | Hcrit]]; [exact H2 | congruence |].
      pose proof (Hmutex i p Hp Hcrit) as H1. congruence.
  - exact Hfree'.
  - intros w Hw. rewrite Hws in Hw. apply elem_of_app in Hw as [Hw|Hw].
    + now apply Hcommitted.
    + exists i, c. split; [exact Hc | now apply Hnew].
Qed.

Lemma not_elem_of_nil_write (c : call) (w : vec3 * Q) : w ∈ @nil (vec3 * Q) -> write_of c w.
Proof. intros H. inversion H. Qed.

Lemma invariant_exec b0 calls s i p p' m' :
  invariant b0 calls s ->
  threads s !! i = Some p ->
  exec i p (mem s) = Some (p', m') ->
  invariant b0 calls {| threads := <[i := p']> (threads s); mem := m' |}.
Proof.
  intros Hinv Hp He.
  destruct (inv_threads _ _ _ Hinv i p Hp) as (c & Hc & Hok).
  pose proof (inv_mutex _ _ _ Hinv i p Hp) as Hmine.
  pose proof (inv_free _ _ _ Hinv) as Hfree.
  destruct p; cbn in He, Hok, Hmine.
  - (* WStart *)
    injection He as <- <-.
    apply (step_invariant b0 calls s i _ c _ _ [] Hinv Hp Hc);
      rewrite ?app_nil_r; auto using not_elem_of_nil_write; try discriminate.
    cbn. subst c. split; [reflexivity | eauto].
  - (* WAcquire *)
    destruct (lock (mem s)) eqn:Hl; [discriminate|]. injection He as <- <-.
    apply (step_invariant b0 calls s i _ c _ _ [] Hinv Hp Hc); cbn;
      rewrite ?app_nil_r; auto using not_elem_of_nil_write; try discriminate.
  - (* WWriteCommand *)
    injection He as <- <-. destruct Hok as [Hw Hst].
    apply (step_invariant b0 calls s i _ c _ _ [] Hinv Hp Hc); cbn;
      rewrite ?app_nil_r; auto using not_elem_of_nil_write; try discriminate.
    rewrite Hmine by reflexivity. discriminate.
  - (* WWriteUntil *)
    injection He as <- <-. destruct Hok as [Hw Hv].
    apply (step_invariant b0 calls s i _ c _ _ [] Hinv Hp Hc); cbn;
      rewrite ?app_nil_r; auto using not_elem_of_nil_write; try discriminate.
    + split; [exact Hw|]. unfold stored. cbn. now rewrite Hv.
    + rewrite Hmine by reflexivity. discriminate.
  - (* WRelease *)
    injection He as <- <-. destruct Hok as [Hw Hst].
    apply (step_invariant b0 calls s i _ c _ _ [(v, until)] Hinv Hp Hc); cbn;
      auto; try discriminate.
    + exists (v, until). split; [|exact Hw]. apply elem_of_app. right. now left.
    + intros _. rewrite in_force_snoc. exact Hst.
    + intros w Hin. apply list_elem_of_singleton in Hin. now subst w.
  - (* WDone *) discriminate.
  - (* RStart *)
    injection He as <- <-.
    apply (step_invariant b0 calls s i _ c _ _ [] Hinv Hp Hc); cbn;
      rewrite ?app_nil_r; auto using not_elem_of_nil_write; try discriminate.
  - (* RAcquire *)
    destruct (lock (mem s)) eqn:Hl; [discriminate|]. injection He as <- <-.
    apply (step_invariant b0 calls s i _ c _ _ [] Hinv Hp Hc); cbn;
      rewrite ?app_nil_r; auto using not_elem_of_nil_write; try discriminate.
  - (* RTest *)
    destruct Hok as [Hn Hst].
    destruct (Qgtb now (_command_until_walltime (bridge (mem s)))) eqn:Hexp;
      injection He as <- <-;
      apply (step_invariant b0 calls s i _ c _ _ [] Hinv Hp Hc); cbn;
      rewrite ?app_nil_r; auto using not_elem_of_nil_write; try discriminate.
    repeat split; try assumption.
    unfold read_of. rewrite <- Hst. cbn. now rewrite Hexp.
  - (* RLoad *)
    injection He as <- <-. destruct Hok as (Hn & Hst & Hexp).
    apply (step_invariant b0 calls s i _ c _ _ [] Hinv Hp Hc); cbn;
      rewrite ?app_nil_r; auto using not_elem_of_nil_write; try discriminate.
    repeat split; try assumption.
    unfold read_of. rewrite <- Hst. cbn. now rewrite Hexp.
  - (* RRelease *)
    injection He as <- <-. destruct Hok as (Hn & Hst & Hv).
    apply (step_invariant b0 calls s i _ c _ _ [] Hinv Hp Hc); cbn;
      rewrite ?app_nil_r; auto using not_elem_of_nil_write; try discriminate.
    split; [lia|]. rewrite Hn, firstn_all. exact Hv.
  - (* RDone *) discriminate.
Qed.

Lemma invariant_do_action b0 calls s a :
  invariant b0 calls s -> invariant b0 calls (do_action s a).
Proof.
  intros Hinv. destruct a as [i|t]; cbn.
  - destruct (threads s !! i) as [p|] eqn:Hp; [|exact Hinv].
    destruct (exec i p (mem s)) as [[p' m']|] eqn:He; [|exact Hinv].
    now apply (invariant_exec b0 calls s i p).
  - destruct Hinv as [Hthreads Hmutex Hfree Hcommitted]. split; cbn; [|auto..].
    intros i p Hp. destruct (Hthreads i p Hp) as (c & Hc & Hok).
    exists c. split; [exact Hc|].
    now apply (thread_ok_frame b0 c p (mem s)).
Qed.

Lemma invariant_run_schedule b0 calls sched : forall s,
  invariant b0 calls s -> invariant b0 calls (run_schedule sched s).
Proof.
  induction sched as [|a sched IH]; intros s Hinv; [exact Hinv|].
  cbn. apply IH. now apply invariant_do_action.
Qed.


Lemma holder_inside_do_action b0 calls s a :
  invariant b0 calls s -> holder_inside s -> holder_inside (do_action s a).
Proof.
  intros Hinv Hholder. destruct a as [i|t]; cbn; [|exact Hholder].
  destruct (threads s !! i) as [p|] eqn:Hp; [|exact Hholder].
  destruct (exec i p (mem s)) as [[p' m']|] eqn:He; [|exact Hholder].
  assert (Hi : (i < length (threads s))%nat) by (eapply lookup_lt_Some; eauto).
  pose proof (inv_mutex _ _ _ Hinv i p Hp) as Hmine.
  assert (Hother : holds_lock p = false -> lock m' = lock (mem s) ->
            holder_inside {| threads := <[i := p']> (threads s); mem := m' |}).
  { intros Hout Hlock j Hj. cbn in Hj |- *. rewrite Hlock in Hj.
    destruct (Hholder j Hj) as (q & Hq & Hcrit).
    assert (i <> j) by (intros ->; congruence).
    exists q. now rewrite list_lookup_insert_ne. }
  assert (Hself : holds_lock p' = true ->
            (lock m' = Some i \/ (holds_lock p = true /\ lock m' = lock (mem s))) ->
            holder_inside {| threads := <[i := p']> (threads s); mem := m' |}).
  { intros Hcrit Hlock j Hj. cbn in Hj |- *.
    assert (j = i).
    { destruct Hlock as [Hl|[Hc Hl]]; [congruence|].
      rewrite Hl, (Hmine Hc) in Hj. congruence. }
    subst j. exists p'. now rewrite list_lookup_insert_eq. }
  assert (Hfree : lock m' = None ->
            holder_inside {| threads := <[i := p']> (threads s); mem := m' |}).
  { intros Hl j Hj. cbn in Hj. congruence. }
  destruct p; cbn in He; try discriminate.
  - injection He as <- <-. now apply Hother.
  - destruct (lock (mem s)); [discriminate|]. injection He as <- <-. apply Hself; auto.
  - injection He as <- <-. apply Hself; auto.
  - injection He as <- <-. apply Hself; auto.
  - injection He as <- <-. now apply Hfree.
  - injection He as <- <-. now apply Hother.
  - destruct (lock (mem s)); [discriminate|]. injection He as <- <-. apply Hself; auto.
  - destruct (Qgtb _ _); injection He as <- <-; apply Hself; auto.
  - injection He as <- <-. apply Hself; auto.
  - injection He as <- <-. now apply Hfree.
Qed.

Lemma holder_inside_run_schedule b0 calls sched : forall s,
  invariant b0 calls s -> holder_inside s -> holder_inside (run_schedule sched s).
Proof.
  induction sched as [|a sched IH]; intros s Hinv Hholder; [exact Hholder|].
  cbn. apply IH; [now apply invariant_do_action | now apply (holder_inside_do_action b0 calls)].
Qed.

Lemma exec_inside i p m : holds_lock p = true -> exists p' m', exec i p m = Some (p', m').
Proof.
  destruct p; try discriminate; intros _; cbn; eauto.
  destruct (Qgtb _ _); eauto.
Qed.

Lemma exec_unlocked i p m :
  lock m = None -> returned p = false -> exists p' m', exec i p m = Some (p', m').
Proof.
  intros Hl Hr. destruct p; try discriminate; cbn; rewrite ?Hl; eauto.
  destruct (Qgtb _ _); eauto.
Qed.



(** X18: under every schedule, at most one thread is inside the lock, the
    thread inside leaves it within three steps of its own without waiting
    for anyone, and as long as a call has not returned some thread can
    move: calls of [set_base_command] and [get_base_command] never
    deadlock. *)
Theorem lock_is_exclusive_and_live
    (b0 : SimBridge) (t0 : Q) (calls : list call) (sched : list action) :
  let s := run_schedule sched (init b0 t0 calls) in
  (forall i j p q,
     threads s !! i = Some p -> threads s !! j = Some q ->
     holds_lock p = true -> holds_lock q = true -> i = j) /\
  (forall i p m,
     holds_lock p = true ->
     lock (snd (run_alone 3 i p m)) = None /\ holds_lock (fst (run_alone 3 i p m)) = false) /\
  ((exists i p, threads s !! i = Some p /\ returned p = false) ->
   exists j p p' m', threads s !! j = Some p /\ exec j p (mem s) = Some (p', m')).
Proof.
  intros s.
  pose proof (invariant_run_schedule b0 calls sched _ (invariant_init b0 t0 calls)) as Hinv.
  assert (Hholder : holder_inside s).
  { apply (holder_inside_run_schedule b0 calls); [apply invariant_init|].
    intros i Hi. discriminate. }
  fold s in Hinv.
  split.
  { intros i j p q Hp Hq Hcp Hcq.
    pose proof (inv_mutex _ _ _ Hinv i p Hp Hcp) as H1.
    pose proof (inv_mutex _ _ _ Hinv j q Hq Hcq) as H2. congruence. }
  split.
  { intros i p m Hc. destruct p; try discriminate; cbn; auto.
    destruct (Qgtb _ _); cbn; auto. }
  intros (i & p & Hp & Hr).
  destruct (lock (mem s)) as [h|] eqn:Hl.
  - destruct (Hholder h Hl) as (q & Hq & Hc).
    destruct (exec_inside h q (mem s) Hc) as (q' & m' & He). now exists h, q, q', m'.
  - destruct (exec_unlocked i p (mem s) Hl Hr) as (p' & m' & He). now exists i, p, p', m'.
Qed.
